(** * astromodels.functions.functions: a shallow embedding

    The module is a catalogue of closed-form one-dimensional functions.
    The classes whose behaviour is stated below ([powerlaw],
    [powerlaw_flux], [broken_powerlaw], [gaussian], [uniform_prior],
    [log_uniform_prior], [sin], [synchrotron], [line], [identity], [bias],
    [band], [log_parabola], [cutoff_powerlaw_flux]) become Rocq modules of
    the same name, whose [evaluate], [_set_units], [peak_energy], ...
    follow the Python statements in their order.

    Numbers.  The values of the parameters are Python floats and the
    coordinates are numpy float64 arrays; both are read as real numbers:
    rounding, overflow and the IEEE special values are outside the model.
    Where an operation has no real value (division by zero, a logarithm
    of a non-positive number, a negative base raised to a fractional
    power, zero raised to a negative power) Python either raises
    (ZeroDivisionError, ValueError on plain floats) or numpy carries on
    with inf/nan and a warning.  The model does not follow the
    computation past such a point:
      - a scalar computation ends in the outcome [Singular];
      - an array element becomes [None].

    Arrays.  A numpy array is the list of its elements; the ufuncs used by
    the source act element by element, boolean masks are lists of
    booleans, and masked reads and writes ([x[idx]], [flux[idx] = ...])
    are the functions [np_take] and [np_put] below.

    Objects.  A method that assigns to an attribute of [self] is a
    function from the object before the call to the outcome and the
    object after it (see [method]). *)

From Stdlib Require Import ZArith Reals Lra List Bool String.
Import ListNotations.
Local Open Scope R_scope.

(** ** Outcomes of a call *)

(** The exceptions raised by a [raise] or [assert] statement of the source. *)
Inductive exn : Type :=
| AssertionError (msg : string)
| RuntimeError (msg : string)
| InvalidUsageForFunction (msg : string).

Inductive outcome (A : Type) : Type :=
| Returns (v : A)
| Raises (e : exn)
| Singular.

Arguments Returns {A} v.
Arguments Raises {A} e.
Arguments Singular {A}.

Definition bind {A B : Type} (c : outcome A) (k : A -> outcome B) : outcome B :=
  match c with
  | Returns v => k v
  | Raises e => Raises e
  | Singular => Singular
  end.

Declare Scope py_scope.
Delimit Scope py_scope with py.
Notation "x <- c ;; k" := (bind c (fun x => k))
  (at level 61, c at next level, right associativity) : py_scope.
Notation "c ;; k" := (bind c (fun _ => k))
  (at level 61, right associativity) : py_scope.
Local Open Scope py_scope.

(** [assert cond, msg] *)
Definition py_assert (cond : bool) (msg : string) : outcome unit :=
  if cond then Returns tt else Raises (AssertionError msg).

(** A scalar operation without a real value stops the scalar computation. *)
Definition scalar (o : option R) : outcome R :=
  match o with
  | Some v => Returns v
  | None => Singular
  end.

(** [raises_only P c]: an exception raised by [c] satisfies [P]. *)
Definition raises_only {A : Type} (P : exn -> Prop) (c : outcome A) : Prop :=
  forall e, c = Raises e -> P e.

(** ** Real arithmetic as the source uses it *)

Definition Rleb (x y : R) : bool := if Rle_dec x y then true else false.
Definition Rltb (x y : R) : bool := if Rlt_dec x y then true else false.
Definition Reqb (x y : R) : bool := if Req_dec_T x y then true else false.

(** [x / y] *)
Definition divide (x y : R) : option R :=
  if Reqb y 0 then None else Some (x / y).

Definition is_integer (y : R) : bool := Reqb (IZR (Int_part y)) y.

(** [pow(x, y)] and [np.power(x, y)]: C's [pow] on the arguments where it
    has a finite real value. *)
Definition power (x y : R) : option R :=
  if Rltb 0 x then Some (Rpower x y)
  else if Reqb y 0 then Some 1
  else if Reqb x 0 then (if Rltb 0 y then Some 0 else None)
  else if is_integer y then Some (powerRZ x (Int_part y))
  else None.

(** [math.log(x)] *)
Definition log (x : R) : option R :=
  if Rltb 0 x then Some (ln x) else None.

(** ** numpy on lists *)

Definition np_lt (x : list R) (s : R) : list bool := map (fun xi => Rltb xi s) x.
Definition np_gt (x : list R) (s : R) : list bool := map (fun xi => Rltb s xi) x.
Definition np_le (x : list R) (s : R) : list bool := map (fun xi => Rleb xi s) x.
Definition np_ge (x : list R) (s : R) : list bool := map (fun xi => Rleb s xi) x.

(** [m1 & m2] *)
Fixpoint np_and (m1 m2 : list bool) : list bool :=
  match m1, m2 with
  | c1 :: m1', c2 :: m2' => (c1 && c2) :: np_and m1' m2'
  | _, _ => []
  end.

(** [~m] *)
Definition np_invert (m : list bool) : list bool := map negb m.

(** [np.where(m, a, b)] with [a] an array and [b] a scalar. *)
Fixpoint np_where {A : Type} (m : list bool) (a : list A) (b : A) : list A :=
  match m, a with
  | c :: m', ai :: a' => (if c then ai else b) :: np_where m' a' b
  | _, _ => []
  end.

(** [np.where(m, a, b)] with both [a] and [b] scalars. *)
Definition np_where_scalar {A : Type} (m : list bool) (a b : A) : list A :=
  map (fun c : bool => if c then a else b) m.

(** [s / x] with [s] a scalar and [x] an array. *)
Definition np_rdivide (s : R) (x : list R) : list (option R) :=
  map (fun xi => divide s xi) x.

(** [np.zeros_like(x)] *)
Definition np_zeros_like (x : list R) : list (option R) := map (fun _ => Some 0) x.

(** [x[m]]: the elements of [x] where the mask holds, in order. *)
Fixpoint np_take {A : Type} (x : list A) (m : list bool) : list A :=
  match x, m with
  | xi :: x', c :: m' => if c then xi :: np_take x' m' else np_take x' m'
  | _, _ => []
  end.

(** [flux[m] = vals]: the masked positions of [flux] receive the elements
    of [vals] in order; the others are kept. *)
Fixpoint np_put {A : Type} (flux : list A) (m : list bool) (vals : list A) : list A :=
  match flux, m with
  | fi :: flux', c :: m' =>
      if c then
        match vals with
        | v :: vals' => v :: np_put flux' m' vals'
        | [] => fi :: np_put flux' m' []
        end
      else fi :: np_put flux' m' vals
  | _, _ => flux
  end.

(** ** Arrays whose elements may have no real value *)

(** A coordinate array read as an array of values. *)
Definition np_array (x : list R) : list (option R) := map Some x.

(** An element-wise operation: an element without a value stays without. *)
Definition elementwise (f : R -> option R) (a : list (option R)) : list (option R) :=
  map (fun e => match e with Some v => f v | None => None end) a.

(** An element-wise operation on two arrays of one shape. *)
Fixpoint elementwise2 (f : R -> R -> option R) (a b : list (option R)) : list (option R) :=
  match a, b with
  | ea :: a', eb :: b' =>
      match ea, eb with
      | Some u, Some v => f u v
      | _, _ => None
      end :: elementwise2 f a' b'
  | _, _ => []
  end.

(** [np.log10(v)] on one element *)
Definition log10 (v : R) : option R :=
  if Rltb 0 v then Some (ln v / ln 10) else None.

(** [a / s], [k * a], [a - s], [s - a], [-a] with [s], [k] scalars *)
Definition np_div_s (a : list (option R)) (s : R) := elementwise (fun v => divide v s) a.
Definition np_mul_s (k : R) (a : list (option R)) := elementwise (fun v => Some (k * v)) a.
Definition np_sub_s (a : list (option R)) (s : R) := elementwise (fun v => Some (v - s)) a.
Definition np_rsub_s (s : R) (a : list (option R)) := elementwise (fun v => Some (s - v)) a.
Definition np_neg (a : list (option R)) := elementwise (fun v => Some (- v)) a.

(** [np.power(a, y)] with [y] a scalar, [np.exp(a)], [np.log10(a)] *)
Definition np_power_s (a : list (option R)) (y : R) := elementwise (fun v => power v y) a.
Definition np_exp (a : list (option R)) := elementwise (fun v => Some (exp v)) a.
Definition np_log10 (a : list (option R)) := elementwise log10 a.

(** [a * b] and [a ** b] with both operands arrays *)
Definition np_mul (a b : list (option R)) := elementwise2 (fun u v => Some (u * v)) a b.
Definition np_power (a b : list (option R)) := elementwise2 power a b.

(** [np.where(m, a, b)] with both [a] and [b] arrays. *)
Fixpoint np_where_arrays {A : Type} (m : list bool) (a b : list A) : list A :=
  match m, a, b with
  | c :: m', ai :: a', bi :: b' => (if c then ai else bi) :: np_where_arrays m' a' b'
  | _, _, _ => []
  end.

(** ** uniform_prior *)

Module uniform_prior.

(** [np.where((x >= lower_bound) & (x <= upper_bound), value, 0.0)] *)
Definition evaluate (x : list R) (lower_bound upper_bound value : R) : list R :=
  np_where_scalar (np_and (np_ge x lower_bound) (np_le x upper_bound)) value 0.0.

End uniform_prior.

(** ** log_uniform_prior *)

Module log_uniform_prior.

(** [np.where((x > lower_bound) & (x < upper_bound), 1.0/x, 0.0)] *)
Definition evaluate (x : list R) (lower_bound upper_bound : R) : list (option R) :=
  np_where (np_and (np_gt x lower_bound) (np_lt x upper_bound))
           (np_rdivide 1.0 x) (Some 0.0).

End log_uniform_prior.

(** ** band *)

Module band.

(** The element computations of an array expression stop at the first
    operation without a real value. *)
Definition obind {A B : Type} (c : option A) (k : A -> option B) : option B :=
  match c with
  | Some v => k v
  | None => None
  end.

Section Scipy.

(** [scipy.special.gammaincc] and [scipy.special.gamma], an external
    library: any pair of functions, partial where scipy answers nan or inf. *)
Variable gammaincc : R -> R -> option R.
Variable gamma : R -> option R.

(** [ggrb_int_cpl(a, Ec, Emin, Emax)] *)
Definition ggrb_int_cpl (a Ec Emin Emax : R) : outcome R :=
  q1 <- scalar (divide Emin Ec) ;;
  g1 <- scalar (gammaincc (2 + a) q1) ;;
  g <- scalar (gamma (2 + a)) ;;
  let i1 := g1 * g in
  q2 <- scalar (divide Emax Ec) ;;
  g2 <- scalar (gammaincc (2 + a) q2) ;;
  g' <- scalar (gamma (2 + a)) ;;
  let i2 := g2 * g' in
  Returns (- Ec * Ec * (i2 - i1)).

(** [pre = pow(a-b, a-b) * math.exp(b-a) / pow(Ec, b)] *)
Definition ggrb_pre (a b Ec : R) : outcome R :=
  p1 <- scalar (power (a - b) (a - b)) ;;
  p2 <- scalar (power Ec b) ;;
  scalar (divide (p1 * exp (b - a)) p2).

(** [ggrb_int_pl(a, b, Ec, Emin, Emax)] *)
Definition ggrb_int_pl (a b Ec Emin Emax : R) : outcome R :=
  pre <- ggrb_pre a b Ec ;;
  if negb (Reqb b (-2)) then
    q <- scalar (divide pre (2 + b)) ;;
    e1 <- scalar (power Emax (2 + b)) ;;
    e2 <- scalar (power Emin (2 + b)) ;;
    Returns (q * (e1 - e2))
  else
    r <- scalar (divide Emax Emin) ;;
    l <- scalar (log r) ;;
    Returns (pre * l).

(** The cutoff energy of [evaluate]:
    [if alpha == -2: Ec = xp / 0.0001 else: Ec = xp / (2 + alpha)] *)
Definition cutoff_energy (alpha xp : R) : outcome R :=
  if Reqb alpha (-2) then scalar (divide xp 0.0001)
  else scalar (divide xp (2 + alpha)).

(** The split energy of [evaluate]: [Esplit = (alpha-beta) * Ec] *)
Definition split_energy (alpha beta Ec : R) : R := (alpha - beta) * Ec.

(** The integrated flux of [evaluate]: the statement [if opt==0: ... else: ...]
    that assigns [intflux] or raises. *)
Definition integrated_flux (alpha beta Ec Esplit a b opt : R) : outcome R :=
  if Reqb opt 0 then
    ggrb_int_cpl alpha Ec a b
  else
    if Rleb a Esplit && Rleb Esplit b then
      i1 <- ggrb_int_cpl alpha Ec a Esplit ;;
      i2 <- ggrb_int_pl alpha beta Ec Esplit b ;;
      Returns (i1 + i2)
    else
      if Rltb Esplit a then
        ggrb_int_pl alpha beta Ec a b
      else
        Raises (RuntimeError "Esplit > emax!").

(** One element of [norm * np.power(x / Ec, alpha) * np.exp(-x / Ec)] *)
Definition low_branch (norm Ec alpha xi : R) : option R :=
  obind (divide xi Ec) (fun q =>
  obind (power q alpha) (fun p =>
  obind (divide (- xi) Ec) (fun q' =>
  Some (norm * p * exp q')))).

(** One element of
    [norm * pow(alpha-beta, alpha-beta) * math.exp(beta-alpha) * np.power(x / Ec, beta)],
    given the value [amp] of [pow(alpha-beta, alpha-beta)]. *)
Definition high_branch (norm amp Ec alpha beta xi : R) : option R :=
  obind (divide xi Ec) (fun q =>
  obind (power q beta) (fun p =>
  Some (norm * amp * exp (beta - alpha) * p))).

(** [evaluate(self, x, alpha, beta, xp, F, a, b, opt)] *)
Definition evaluate (x : list R) (alpha beta xp F a b opt : R) : outcome (list (option R)) :=
  py_assert (Reqb opt 0 || Reqb opt 1) "Opt must be either 0 or 1" ;;
  Ec <- cutoff_energy alpha xp ;;
  let Esplit := split_energy alpha beta Ec in
  intflux <- integrated_flux alpha beta Ec Esplit a b opt ;;
  let erg2keV := 6.24151e8 in
  norm <- scalar (divide (F * erg2keV) intflux) ;;
  if Reqb opt 0 then
    Returns (map (low_branch norm Ec alpha) x)
  else
    let idx := np_lt x Esplit in
    let flux := np_zeros_like x in
    let flux := np_put flux idx (map (low_branch norm Ec alpha) (np_take x idx)) in
    let nidx := np_invert idx in
    amp <- scalar (power (alpha - beta) (alpha - beta)) ;;
    let flux := np_put flux nidx (map (high_branch norm amp Ec alpha beta) (np_take x nidx)) in
    Returns flux.

End Scipy.

End band.

(** ** Parameters and units *)

Module Param.

(** Modelled from the spec: the class Parameter (astromodels.parameter) is
    not among the sources.  Section 3 of the specification: "Parameter:
    name, numeric value, optional unit, fixed/free flag, optional min/max
    bounds", "mutated by the caller or by unit-assignment".  [U] is the
    type of unit objects. *)
Record t (U : Type) : Type := make {
  name : string;
  value : R;
  unit : option U;
  free : bool;
  min_value : option R;
  max_value : option R
}.

Arguments make {U}.
Arguments name {U}.
Arguments value {U}.
Arguments unit {U}.
Arguments free {U}.
Arguments min_value {U}.
Arguments max_value {U}.

(** [p.unit = u] *)
Definition set_unit {U : Type} (p : t U) (u : U) : t U :=
  make (name p) (value p) (Some u) (free p) (min_value p) (max_value p).

End Param.

(** The unit set answered by [get_units()] (astromodels.units). *)
Record UnitSystem (U : Type) : Type := {
  photon_energy : U;
  time : U;
  area : U;
  particle_energy : U
}.

Arguments photon_energy {U}.
Arguments time {U}.
Arguments area {U}.
Arguments particle_energy {U}.

(** The operations of astropy.units that the source calls on unit objects. *)
Record UnitOps (U : Type) : Type := {
  (** [u != v] *)
  unit_ne : U -> U -> bool;
  (** [u * v] *)
  unit_mul : U -> U -> U;
  (** [u.physical_type], [None] when [hasattr(u, "physical_type")] is false *)
  physical_type : U -> option string;
  (** [u.decompose().physical_type] *)
  decomposed_physical_type : U -> string;
  (** [get_units()] *)
  get_units : UnitSystem U
}.

Arguments unit_ne {U}.
Arguments unit_mul {U}.
Arguments physical_type {U}.
Arguments decomposed_physical_type {U}.
Arguments get_units {U}.

(** The further operations of astropy.units that the unit assignments of
    the catalogue use. *)
Record UnitAlgebra (U : Type) : Type := {
  (** [u / v] *)
  unit_div : U -> U -> U;
  (** [u ** n] *)
  unit_pow : U -> Z -> U;
  (** [astropy_units.dimensionless_unscaled] *)
  dimensionless_unscaled : U;
  (** [astropy_units.rad] *)
  rad : U
}.

Arguments unit_div {U}.
Arguments unit_pow {U}.
Arguments dimensionless_unscaled {U}.
Arguments rad {U}.

(** A method that assigns to [self] returns its outcome together with
    the object as the call leaves it: what was assigned before a [raise]
    stays assigned. *)
Definition method (S A : Type) : Type := S -> outcome A * S.

(** ** synchrotron *)

Module synchrotron.

Section Units.

Context {U : Type} (astropy : UnitOps U).

Record t : Type := {
  B : Param.t U;
  distance : Param.t U;
  emin : Param.t U;
  emax : Param.t U;
  need : Param.t U
}.

(** [hasattr(x_unit, "physical_type") and x_unit.physical_type == 'energy'] *)
Definition is_energy (x_unit : U) : bool :=
  match physical_type astropy x_unit with
  | Some ty => String.eqb ty "energy"
  | None => false
  end.

(** [not hasattr(should_be_unitless, 'physical_type') or
     should_be_unitless.decompose().physical_type != 'dimensionless'] *)
Definition is_not_unitless (should_be_unitless : U) : bool :=
  match physical_type astropy should_be_unitless with
  | None => true
  | Some _ =>
      negb (String.eqb (decomposed_physical_type astropy should_be_unitless) "dimensionless")
  end.

(** [_set_units(self, x_unit, y_unit)] *)
Definition _set_units (x_unit y_unit : U) : method t Datatypes.unit := fun self =>
  if is_energy x_unit then
    let current_units := get_units astropy in
    let should_be_unitless :=
      unit_mul astropy y_unit
        (unit_mul astropy
           (unit_mul astropy (photon_energy current_units) (time current_units))
           (area current_units)) in
    if is_not_unitless should_be_unitless then
      (Raises (InvalidUsageForFunction
         "Unit for y is not differential flux. The function synchrotron can only be used as a spectrum."),
       self)
    else
      (Returns tt, self)
  else
    (Raises (InvalidUsageForFunction
       "Unit for x is not an energy. The function synchrotron can only be used as a spectrum"),
     self).

End Units.

Arguments t : clear implicits.

Section ParticleDistribution.

Context {U : Type} (astropy : UnitOps U) (units : UnitAlgebra U).

(** The Function objects that can be attached as particle distribution:
    [D] is the state of such an object and [function_set_units] its method
    [_set_units].  Objects are named by references; [function] below is a
    reference to another object than [self]. *)
Variable D : Type.
Variable function_set_units : U -> U -> method D Datatypes.unit.

(** The store of the Function objects and the two attributes that
    [set_particle_distribution] creates on [self] ([None]: the attribute
    does not exist).  The wrapper is the closure
    [lambda x: function(x.value) / current_units.particle_energy]: it holds
    the reference [function] and the unit set read at the assignment. *)
Record state : Type := {
  objects : nat -> D;
  _particle_distribution : option nat;
  _particle_distribution_wrapper : option (nat * U)
}.

(** [set_particle_distribution(self, function)] *)
Definition set_particle_distribution (function : nat) : method state Datatypes.unit :=
  fun self =>
  let self := {| objects := objects self;
                 _particle_distribution := Some function;
                 _particle_distribution_wrapper := _particle_distribution_wrapper self |} in
  let current_units := get_units astropy in
  let called := function_set_units (particle_energy current_units)
                  (unit_pow units (particle_energy current_units) (-1))
                  (objects self function) in
  let self := {| objects := fun r => if Nat.eqb r function then snd called
                                     else objects self r;
                 _particle_distribution := _particle_distribution self;
                 _particle_distribution_wrapper := _particle_distribution_wrapper self |} in
  match fst called with
  | Returns _ =>
      (Returns tt,
       {| objects := objects self;
          _particle_distribution := _particle_distribution self;
          _particle_distribution_wrapper :=
            Some (function, particle_energy current_units) |})
  | Raises e => (Raises e, self)
  | Singular => (Singular, self)
  end.

(** [get_particle_distribution(self)]: [return self._particle_distribution] *)
Definition get_particle_distribution (self : state) : option nat :=
  _particle_distribution self.

End ParticleDistribution.

End synchrotron.

(** ** bias *)

Module bias.

Section Units.

Context {U : Type} (astropy : UnitOps U).

Record t : Type := { k : Param.t U }.

(** [_set_units(self, x_unit, y_unit)] *)
Definition _set_units (x_unit y_unit : U) : method t Datatypes.unit := fun self =>
  let self := {| k := Param.set_unit (k self) x_unit |} in
  if unit_ne astropy x_unit y_unit then
    (Raises (InvalidUsageForFunction
       "Function bias cannot be given different units for x and y"),
     self)
  else
    (Returns tt, self).

(** [evaluate(self, x, k)] *)
Definition evaluate (x : list R) (k : R) : list R := map (fun xi => xi + k) x.

End Units.

Arguments t : clear implicits.

End bias.

(** ** log_parabola *)

Module log_parabola.

(** [evaluate(self, x, K, piv, alpha, beta)]:
    [xx = x/piv; return K * xx**(alpha - beta * np.log10(xx))] *)
Definition evaluate (x : list R) (K piv alpha beta : R) : list (option R) :=
  let xx := np_div_s (np_array x) piv in
  np_mul_s K (np_power xx (np_rsub_s alpha (np_mul_s beta (np_log10 xx)))).

Section Units.

Context {U : Type}.

Record t : Type := {
  K : Param.t U;
  piv : Param.t U;
  alpha : Param.t U;
  beta : Param.t U
}.

(** The property [peak_energy]:
    [self.piv.value * pow(10, (2 + self.alpha.value) / (2 * self.beta.value))] *)
Definition peak_energy : method t R := fun self =>
  (let piv_value := Param.value (piv self) in
   e <- scalar (divide (2 + Param.value (alpha self)) (2 * Param.value (beta self))) ;;
   p <- scalar (power 10 e) ;;
   Returns (piv_value * p),
   self).

End Units.

Arguments t : clear implicits.

End log_parabola.

(** ** powerlaw *)

Module powerlaw.

(** [evaluate(self, x, K, piv, index)]: [K * np.power(x / piv, index)] *)
Definition evaluate (x : list R) (K piv index : R) : list (option R) :=
  np_mul_s K (np_power_s (np_div_s (np_array x) piv) index).


Section Units.

Context {U : Type} (astropy : UnitOps U) (units : UnitAlgebra U).

Record t : Type := { K : Param.t U; piv : Param.t U; index : Param.t U }.

(** [_set_units(self, x_unit, y_unit)] *)
Definition _set_units (x_unit y_unit : U) : method t Datatypes.unit := fun self =>
  let self := {| K := K self; piv := piv self;
                 index := Param.set_unit (index self) (dimensionless_unscaled units) |} in
  let self := {| K := K self; piv := Param.set_unit (piv self) x_unit;
                 index := index self |} in
  let self := {| K := Param.set_unit (K self) y_unit; piv := piv self;
                 index := index self |} in
  (Returns tt, self).

End Units.

Arguments t : clear implicits.

End powerlaw.

(** ** powerlaw_flux *)

Module powerlaw_flux.

(** [evaluate(self, x, F, index, a, b)]:
    [gp1 = index + 1; return F * gp1 / (b**gp1 - a**gp1) * np.power(x, index)] *)
Definition evaluate (x : list R) (F index a b : R) : outcome (list (option R)) :=
  let gp1 := index + 1 in
  pb <- scalar (power b gp1) ;;
  pa <- scalar (power a gp1) ;;
  c <- scalar (divide (F * gp1) (pb - pa)) ;;
  Returns (np_mul_s c (np_power_s (np_array x) index)).


Section Units.

Context {U : Type} (astropy : UnitOps U) (units : UnitAlgebra U).

Record t : Type := { F : Param.t U; index : Param.t U; a : Param.t U; b : Param.t U }.

(** [_set_units(self, x_unit, y_unit)] *)
Definition _set_units (x_unit y_unit : U) : method t Datatypes.unit := fun self =>
  let self := {| F := Param.set_unit (F self) (unit_mul astropy y_unit x_unit);
                 index := index self; a := a self; b := b self |} in
  let self := {| F := F self;
                 index := Param.set_unit (index self) (dimensionless_unscaled units);
                 a := a self; b := b self |} in
  let self := {| F := F self; index := index self;
                 a := Param.set_unit (a self) x_unit; b := b self |} in
  let self := {| F := F self; index := index self; a := a self;
                 b := Param.set_unit (b self) x_unit |} in
  (Returns tt, self).

End Units.

Arguments t : clear implicits.

End powerlaw_flux.

(** ** broken_powerlaw *)

Module broken_powerlaw.

(** [evaluate(self, x, K, xb, alpha, beta)]:
    [K * np.where((x < xb), np.power(x,alpha), np.power(x,beta))] *)
Definition evaluate (x : list R) (K xb alpha beta : R) : list (option R) :=
  np_mul_s K (np_where_arrays (np_lt x xb)
                (np_power_s (np_array x) alpha) (np_power_s (np_array x) beta)).

End broken_powerlaw.

(** ** gaussian *)

Module gaussian.

(** The class attribute [__norm_const = 1.0 / (math.sqrt(2 * np.pi))] *)
Definition __norm_const : R := 1.0 / sqrt (2 * PI).

(** [evaluate(self, x, F, mu, sigma)]:
    [norm = self.__norm_const / sigma;
     return F * norm * np.exp(-np.power(x - mu, 2.) / (2 * np.power(sigma, 2.)))] *)
Definition evaluate (x : list R) (F mu sigma : R) : outcome (list (option R)) :=
  norm <- scalar (divide __norm_const sigma) ;;
  sigma2 <- scalar (power sigma 2.0) ;;
  Returns (np_mul_s (F * norm)
             (np_exp (np_div_s (np_neg (np_power_s (np_sub_s (np_array x) mu) 2.0))
                               (2 * sigma2)))).


Section Units.

Context {U : Type} (astropy : UnitOps U) (units : UnitAlgebra U).

Record t : Type := { F : Param.t U; mu : Param.t U; sigma : Param.t U }.

(** [_set_units(self, x_unit, y_unit)] *)
Definition _set_units (x_unit y_unit : U) : method t Datatypes.unit := fun self =>
  let self := {| F := Param.set_unit (F self) (unit_mul astropy y_unit x_unit);
                 mu := mu self; sigma := sigma self |} in
  let self := {| F := F self; mu := Param.set_unit (mu self) x_unit;
                 sigma := sigma self |} in
  let self := {| F := F self; mu := mu self;
                 sigma := Param.set_unit (sigma self) x_unit |} in
  (Returns tt, self).

End Units.

Arguments t : clear implicits.

End gaussian.

(** ** sin *)

Module sin.

(** [evaluate(self, x, K, f, phi)]: [K * np.sin(2 * np.pi * f * x + phi)] *)
Definition evaluate (x : list R) (K f phi : R) : list R :=
  map (fun xi => K * sin (2 * PI * f * xi + phi)) x.


Section Units.

Context {U : Type} (astropy : UnitOps U) (units : UnitAlgebra U).

Record t : Type := { K : Param.t U; f : Param.t U; phi : Param.t U }.

(** [_set_units(self, x_unit, y_unit)] *)
Definition _set_units (x_unit y_unit : U) : method t Datatypes.unit := fun self =>
  let self := {| K := Param.set_unit (K self) y_unit; f := f self; phi := phi self |} in
  let self := {| K := K self; f := Param.set_unit (f self) (unit_pow units x_unit (-1));
                 phi := phi self |} in
  let self := {| K := K self; f := f self;
                 phi := Param.set_unit (phi self) (rad units) |} in
  (Returns tt, self).

End Units.

Arguments t : clear implicits.

End sin.

(** ** line and identity *)

Module line.

(** [evaluate(self, x, a, b)]: [a * x + b] *)
Definition evaluate (x : list R) (a b : R) : list R := map (fun xi => a * xi + b) x.


Section Units.

Context {U : Type} (astropy : UnitOps U) (units : UnitAlgebra U).

Record t : Type := { a : Param.t U; b : Param.t U }.

(** [_set_units(self, x_unit, y_unit)] *)
Definition _set_units (x_unit y_unit : U) : method t Datatypes.unit := fun self =>
  let self := {| a := Param.set_unit (a self) (unit_div units y_unit x_unit);
                 b := b self |} in
  let self := {| a := a self; b := Param.set_unit (b self) y_unit |} in
  (Returns tt, self).

End Units.

Arguments t : clear implicits.

End line.

Module identity.

(** [evaluate(self, x)]: [x] *)
Definition evaluate (x : list R) : list R := x.

End identity.

(** ** cutoff_powerlaw_flux *)

Module cutoff_powerlaw_flux.

Section Gsl.

(** [pygsl.testing.sf.gamma_inc], an external library: any function,
    partial where it has no finite value. *)
Variable gamma_inc : R -> R -> option R.

(** [integrand = lambda x: -pow(ec, ap1) * gamma_inc(ap1, x / ec)] *)
Definition integrand (ec ap1 x : R) : outcome R :=
  p <- scalar (power ec ap1) ;;
  q <- scalar (divide x ec) ;;
  g <- scalar (gamma_inc ap1 q) ;;
  Returns (- p * g).

(** [_integral(a, b, alpha, ec)]:
    [ap1 = alpha + 1; return integrand(b) - integrand(a)] *)
Definition _integral (a b alpha ec : R) : outcome R :=
  let ap1 := alpha + 1 in
  ib <- integrand ec ap1 b ;;
  ia <- integrand ec ap1 a ;;
  Returns (ib - ia).

(** [evaluate(self, x, F, alpha, xc, a, b)]:
    [this_integral = self._integral(a, b, alpha, xc);
     return F / this_integral * np.power(x, alpha) * np.exp(-x / xc)] *)
Definition evaluate (x : list R) (F alpha xc a b : R) : outcome (list (option R)) :=
  this_integral <- _integral a b alpha xc ;;
  c <- scalar (divide F this_integral) ;;
  Returns (np_mul (np_mul_s c (np_power_s (np_array x) alpha))
                  (np_exp (np_div_s (np_neg (np_array x)) xc))).

End Gsl.

End cutoff_powerlaw_flux.

(** ** A unit system for the examples

    astropy is external to the module; the examples below run the unit
    checks on a small dimensional calculus of its kind, where a unit is the
    vector of its exponents of energy, time and length. *)

Module dimensional.

Record dim : Type := { energy_exp : Z; time_exp : Z; length_exp : Z }.

Definition eqb (u v : dim) : bool :=
  (energy_exp u =? energy_exp v)%Z && (time_exp u =? time_exp v)%Z
  && (length_exp u =? length_exp v)%Z.

Definition mul (u v : dim) : dim :=
  {| energy_exp := energy_exp u + energy_exp v;
     time_exp := time_exp u + time_exp v;
     length_exp := length_exp u + length_exp v |}.

Definition keV : dim := {| energy_exp := 1; time_exp := 0; length_exp := 0 |}.
Definition second : dim := {| energy_exp := 0; time_exp := 1; length_exp := 0 |}.
Definition cm2 : dim := {| energy_exp := 0; time_exp := 0; length_exp := 2 |}.
Definition one : dim := {| energy_exp := 0; time_exp := 0; length_exp := 0 |}.
(** 1 / (keV s cm2), the unit of a differential photon flux *)
Definition photon_flux : dim := {| energy_exp := -1; time_exp := -1; length_exp := -2 |}.

Definition type_name (u : dim) : string :=
  if eqb u keV then "energy"
  else if eqb u one then "dimensionless"
  else if eqb u second then "time"
  else if eqb u cm2 then "area"
  else "unknown".

Definition ops : UnitOps dim :=
  {| unit_ne := fun u v => negb (eqb u v);
     unit_mul := mul;
     physical_type := fun u => Some (type_name u);
     decomposed_physical_type := type_name;
     get_units := {| photon_energy := keV; time := second; area := cm2;
                     particle_energy := keV |} |}.

(** A parameter with the given value and, so far, no unit. *)
Definition parameter (name : string) (value : R) : Param.t dim :=
  Param.make name value None true None None.


Definition inv (u : dim) : dim :=
  {| energy_exp := - energy_exp u; time_exp := - time_exp u;
     length_exp := - length_exp u |}.

Definition pow (u : dim) (n : Z) : dim :=
  {| energy_exp := n * energy_exp u; time_exp := n * time_exp u;
     length_exp := n * length_exp u |}.

(** Angles carry no dimension of energy, time or length. *)
Definition algebra : UnitAlgebra dim :=
  {| unit_div := fun u v => mul u (inv v);
     unit_pow := pow;
     dimensionless_unscaled := one;
     rad := one |}.

End dimensional.

(** * Properties *)

(** ** Comparisons and the regular domain of the arithmetic *)

Lemma Rleb_reflect (x y : R) : reflect (x <= y) (Rleb x y).
Proof. unfold Rleb; destruct (Rle_dec x y); constructor; assumption. Qed.

Lemma Rltb_reflect (x y : R) : reflect (x < y) (Rltb x y).
Proof. unfold Rltb; destruct (Rlt_dec x y); constructor; assumption. Qed.

Lemma Reqb_reflect (x y : R) : reflect (x = y) (Reqb x y).
Proof. unfold Reqb; destruct (Req_dec_T x y); constructor; assumption. Qed.

(** Case analysis on every comparison of the goal, closing the
    arithmetic side conditions. *)
Ltac real_cases :=
  repeat match goal with
    | |- context [Rleb ?x ?y] => destruct (Rleb_reflect x y)
    | |- context [Rltb ?x ?y] => destruct (Rltb_reflect x y)
    | |- context [Reqb ?x ?y] => destruct (Reqb_reflect x y)
    end;
  simpl; try reflexivity; try lra; try (repeat f_equal; lra); try (exfalso; lra).

Lemma divide_regular (x y : R) : y <> 0 -> divide x y = Some (x / y).
Proof. intros Hy; unfold divide; destruct (Reqb_reflect y 0); [contradiction | reflexivity]. Qed.

Lemma divide_by_zero (x : R) : divide x 0 = None.
Proof. unfold divide; destruct (Reqb_reflect 0 0); [reflexivity | contradiction n; reflexivity]. Qed.

Lemma power_regular (x y : R) : 0 < x -> power x y = Some (Rpower x y).
Proof. intros Hx; unfold power; destruct (Rltb_reflect 0 x); [reflexivity | contradiction]. Qed.

Lemma log_regular (x : R) : 0 < x -> log x = Some (ln x).
Proof. intros Hx; unfold log; destruct (Rltb_reflect 0 x); [reflexivity | contradiction]. Qed.

(** ** Element-wise reading of the array expressions *)

Lemma np_and_map {A : Type} (f g : A -> bool) (x : list A) :
  np_and (map f x) (map g x) = map (fun xi => f xi && g xi) x.
Proof. induction x as [|xi x IH]; simpl; [reflexivity | now rewrite IH]. Qed.

Lemma np_where_map {A B : Type} (c : A -> bool) (f : A -> B) (b : B) (x : list A) :
  np_where (map c x) (map f x) b = map (fun xi => if c xi then f xi else b) x.
Proof. induction x as [|xi x IH]; simpl; [reflexivity | now rewrite IH]. Qed.

Lemma np_put_take_map {A B : Type} (c : A -> bool) (f h : A -> B) (x : list A) :
  np_put (map h x) (map c x) (map f (np_take x (map c x)))
  = map (fun xi => if c xi then f xi else h xi) x.
Proof.
  induction x as [|xi x IH]; simpl; [reflexivity |].
  destruct (c xi); simpl; now rewrite IH.
Qed.

Lemma uniform_prior_evaluate_map (x : list R) (lower_bound upper_bound value : R) :
  uniform_prior.evaluate x lower_bound upper_bound value =
  map (fun xi => if Rleb lower_bound xi && Rleb xi upper_bound then value else 0) x.
Proof.
  unfold uniform_prior.evaluate, np_where_scalar, np_ge, np_le.
  rewrite np_and_map, map_map.
  apply map_ext; intros xi.
  replace 0.0 with 0 by lra. reflexivity.
Qed.

Lemma log_uniform_prior_evaluate_map (x : list R) (lower_bound upper_bound : R) :
  log_uniform_prior.evaluate x lower_bound upper_bound =
  map (fun xi => if Rltb lower_bound xi && Rltb xi upper_bound
                 then divide 1 xi else Some 0) x.
Proof.
  unfold log_uniform_prior.evaluate, np_gt, np_lt, np_rdivide.
  rewrite np_and_map, np_where_map.
  apply map_ext; intros xi.
  replace 1.0 with 1 by lra. replace 0.0 with 0 by lra. reflexivity.
Qed.

(** C6.  [uniform_prior.evaluate] answers, at every position of the input
    array, [value] when the coordinate lies in the closed interval
    [lower_bound, upper_bound] and 0 otherwise, and the output has the
    shape of the input; with bounds [0, 1] and value 1 the coordinates
    0.5, -0.5, 0 and 1 give 1, 0, 1 and 1. *)
Theorem uniform_prior_evaluate_closed_interval :
  (forall (x : list R) (lower_bound upper_bound value : R),
      List.length (uniform_prior.evaluate x lower_bound upper_bound value) = List.length x /\
      forall (i : nat) (xi : R), nth_error x i = Some xi ->
        (lower_bound <= xi <= upper_bound ->
         nth_error (uniform_prior.evaluate x lower_bound upper_bound value) i = Some value) /\
        (~ (lower_bound <= xi <= upper_bound) ->
         nth_error (uniform_prior.evaluate x lower_bound upper_bound value) i = Some 0)) /\
  uniform_prior.evaluate [0.5; -0.5; 0; 1] 0 1 1 = [1.0; 0.0; 1.0; 1.0].
Proof.
  split.
  - intros x lb ub value. rewrite uniform_prior_evaluate_map. split.
    + apply length_map.
    + intros i xi Hi. rewrite nth_error_map, Hi. simpl.
      split; intros H.
      * destruct (Rleb_reflect lb xi), (Rleb_reflect xi ub); simpl; try reflexivity; lra.
      * destruct (Rleb_reflect lb xi), (Rleb_reflect xi ub); simpl; try reflexivity.
        exfalso; apply H; split; assumption.
  - rewrite uniform_prior_evaluate_map. simpl.
    repeat f_equal; real_cases.
Qed.

(** The closed-interval reading of C6 on the array of the four test
    coordinates. *)
Lemma uniform_prior_evaluate_closed_interval_witness :
  nth_error (uniform_prior.evaluate [0.5; -0.5; 0; 1] 0 1 1) 2 = Some 1 /\
  nth_error (uniform_prior.evaluate [0.5; -0.5; 0; 1] 0 1 1) 1 = Some 0.
Proof.
  destruct uniform_prior_evaluate_closed_interval as [general _].
  destruct (general [0.5; -0.5; 0; 1] 0 1 1) as [_ pointwise].
  split.
  - apply (pointwise 2%nat 0); [reflexivity | lra].
  - apply (pointwise 1%nat (-0.5)); [reflexivity | lra].
Defined.

(** C7.  With [lower_bound >= 0], [log_uniform_prior.evaluate] answers, at
    every position of the input array, [1/x] when the coordinate lies
    strictly between the bounds and 0 when it is at or outside a bound;
    with bounds [0, 100] the coordinates 50, 200, 0 and 100 give 0.02, 0,
    0 and 0. *)
Theorem log_uniform_prior_evaluate_open_interval :
  (forall (x : list R) (lower_bound upper_bound : R),
      0 <= lower_bound ->
      List.length (log_uniform_prior.evaluate x lower_bound upper_bound) = List.length x /\
      forall (i : nat) (xi : R), nth_error x i = Some xi ->
        (lower_bound < xi < upper_bound ->
         nth_error (log_uniform_prior.evaluate x lower_bound upper_bound) i
         = Some (Some (1 / xi))) /\
        (xi <= lower_bound \/ upper_bound <= xi ->
         nth_error (log_uniform_prior.evaluate x lower_bound upper_bound) i
         = Some (Some 0))) /\
  log_uniform_prior.evaluate [50; 200; 0; 100] 0 100
  = [Some 0.02; Some 0.0; Some 0.0; Some 0.0].
Proof.
  split.
  - intros x lb ub Hlb. rewrite log_uniform_prior_evaluate_map. split.
    + apply length_map.
    + intros i xi Hi. rewrite nth_error_map, Hi. simpl.
      split; intros H.
      * destruct (Rltb_reflect lb xi), (Rltb_reflect xi ub); simpl; try lra.
        rewrite divide_regular by lra. reflexivity.
      * destruct (Rltb_reflect lb xi), (Rltb_reflect xi ub); simpl; try reflexivity; lra.
  - rewrite log_uniform_prior_evaluate_map. simpl.
    f_equal; [| repeat (f_equal; [real_cases |]); real_cases].
    destruct (Rltb_reflect 0 50), (Rltb_reflect 50 100); simpl; try lra.
    rewrite divide_regular by lra. f_equal. lra.
Qed.

(** The open-interval reading of C7 on the array of the four test
    coordinates. *)
Lemma log_uniform_prior_evaluate_open_interval_witness :
  nth_error (log_uniform_prior.evaluate [50; 200; 0; 100] 0 100) 0 = Some (Some (1 / 50)) /\
  nth_error (log_uniform_prior.evaluate [50; 200; 0; 100] 0 100) 2 = Some (Some 0).
Proof.
  destruct log_uniform_prior_evaluate_open_interval as [general _].
  destruct (general [50; 200; 0; 100] 0 100 (Rle_refl 0)) as [_ pointwise].
  split.
  - apply (pointwise 0%nat 50); [reflexivity | lra].
  - apply (pointwise 2%nat 0); [reflexivity | lra].
Defined.

(** ** The power-law integral and the join of the two branches *)

Lemma Rpower_neq_0 (x y : R) : Rpower x y <> 0.
Proof. unfold Rpower. pose proof (exp_pos (y * ln x)). lra. Qed.

Lemma ggrb_pre_regular (a b Ec : R) :
  b < a -> 0 < Ec ->
  band.ggrb_pre a b Ec = Returns (Rpower (a - b) (a - b) * exp (b - a) / Rpower Ec b).
Proof.
  intros Hab HEc. unfold band.ggrb_pre.
  rewrite (power_regular (a - b)) by lra. rewrite (power_regular Ec) by assumption.
  simpl. rewrite divide_regular by apply Rpower_neq_0. reflexivity.
Qed.

(** The two branches of [ggrb_int_pl], on all arguments: the division by
    [2 + b] is never singular in the branch that performs it. *)
Lemma ggrb_int_pl_branches (a b Ec Emin Emax : R) :
  (b <> -2 ->
   band.ggrb_int_pl a b Ec Emin Emax
   = (pre <- band.ggrb_pre a b Ec ;;
      e1 <- scalar (power Emax (2 + b)) ;;
      e2 <- scalar (power Emin (2 + b)) ;;
      Returns (pre / (2 + b) * (e1 - e2)))) /\
  (b = -2 ->
   band.ggrb_int_pl a b Ec Emin Emax
   = (pre <- band.ggrb_pre a b Ec ;;
      r <- scalar (divide Emax Emin) ;;
      l <- scalar (log r) ;;
      Returns (pre * l))).
Proof.
  unfold band.ggrb_int_pl. split; intros Hb.
  - destruct (Reqb_reflect b (-2)); [contradiction |]. simpl.
    destruct (band.ggrb_pre a b Ec) as [pre | e |]; simpl; try reflexivity.
    rewrite divide_regular by lra. reflexivity.
  - destruct (Reqb_reflect b (-2)); [| contradiction]. reflexivity.
Qed.

(** On positive energies, with [a > b] and [Ec > 0], every operation of
    [ggrb_int_pl] has a real value. *)
Lemma ggrb_int_pl_polynomial (a b Ec Emin Emax : R) :
  b < a -> 0 < Ec -> 0 < Emin -> 0 < Emax -> b <> -2 ->
  band.ggrb_int_pl a b Ec Emin Emax
  = Returns (Rpower (a - b) (a - b) * exp (b - a) / Rpower Ec b / (2 + b)
             * (Rpower Emax (2 + b) - Rpower Emin (2 + b))).
Proof.
  intros Hab HEc HEmin HEmax Hb.
  rewrite (proj1 (ggrb_int_pl_branches a b Ec Emin Emax) Hb).
  rewrite ggrb_pre_regular by assumption. simpl.
  rewrite !power_regular by assumption. reflexivity.
Qed.

Lemma ggrb_int_pl_logarithmic (a b Ec Emin Emax : R) :
  b < a -> 0 < Ec -> 0 < Emin -> 0 < Emax -> b = -2 ->
  band.ggrb_int_pl a b Ec Emin Emax
  = Returns (Rpower (a - b) (a - b) * exp (b - a) / Rpower Ec b * ln (Emax / Emin)).
Proof.
  intros Hab HEc HEmin HEmax Hb.
  rewrite (proj2 (ggrb_int_pl_branches a b Ec Emin Emax) Hb).
  rewrite ggrb_pre_regular by assumption. simpl.
  rewrite divide_regular by lra. simpl.
  rewrite log_regular by (apply Rdiv_lt_0_compat; assumption). reflexivity.
Qed.

(** C3.  [ggrb_int_pl(a, b, Ec, Emin, Emax)] takes the polynomial form
    [pre / (2 + b) * (Emax^(2+b) - Emin^(2+b))] for every [b] other than
    -2 and the logarithmic form [pre * log(Emax / Emin)] for [b == -2],
    where [pre = pow(a-b, a-b) * exp(b-a) / pow(Ec, b)]: on all arguments
    as far as the powers, the quotients and the logarithm have values,
    and in closed form on positive energies with [a > b] and [Ec > 0],
    where they all have. *)
Theorem ggrb_int_pl_closed_form :
  forall (a b Ec Emin Emax : R),
    ((b <> -2 ->
      band.ggrb_int_pl a b Ec Emin Emax
      = (pre <- band.ggrb_pre a b Ec ;;
         e1 <- scalar (power Emax (2 + b)) ;;
         e2 <- scalar (power Emin (2 + b)) ;;
         Returns (pre / (2 + b) * (e1 - e2)))) /\
     (b = -2 ->
      band.ggrb_int_pl a b Ec Emin Emax
      = (pre <- band.ggrb_pre a b Ec ;;
         r <- scalar (divide Emax Emin) ;;
         l <- scalar (log r) ;;
         Returns (pre * l)))) /\
    (b < a -> 0 < Ec -> 0 < Emin -> 0 < Emax ->
     let pre := Rpower (a - b) (a - b) * exp (b - a) / Rpower Ec b in
     band.ggrb_pre a b Ec = Returns pre /\
     (b <> -2 ->
      band.ggrb_int_pl a b Ec Emin Emax
      = Returns (pre / (2 + b) * (Rpower Emax (2 + b) - Rpower Emin (2 + b)))) /\
     (b = -2 ->
      band.ggrb_int_pl a b Ec Emin Emax = Returns (pre * ln (Emax / Emin)))).
Proof.
  intros a b Ec Emin Emax. split.
  - apply ggrb_int_pl_branches.
  - intros Hab HEc HEmin HEmax pre.
    split; [apply ggrb_pre_regular; assumption |].
    split; intros Hb.
    + apply ggrb_int_pl_polynomial; assumption.
    + apply ggrb_int_pl_logarithmic; assumption.
Qed.

(** C3 on concrete arguments, one for each branch. *)
Lemma ggrb_int_pl_closed_form_witness :
  band.ggrb_int_pl (-1) (-3) 100 10 1000
  = Returns (Rpower (-1 - -3) (-1 - -3) * exp (-3 - -1) / Rpower 100 (-3) / (2 + -3)
             * (Rpower 1000 (2 + -3) - Rpower 10 (2 + -3))) /\
  band.ggrb_int_pl (-1) (-2) 100 10 1000
  = Returns (Rpower (-1 - -2) (-1 - -2) * exp (-2 - -1) / Rpower 100 (-2)
             * ln (1000 / 10)).
Proof.
  split.
  - apply (ggrb_int_pl_closed_form (-1) (-3) 100 10 1000); lra.
  - apply (ggrb_int_pl_closed_form (-1) (-2) 100 10 1000); lra.
Defined.

(** On positive coordinates, with [Ec > 0], both branch expressions have
    real values. *)
Lemma low_branch_regular (norm Ec alpha x : R) :
  0 < Ec -> 0 < x ->
  band.low_branch norm Ec alpha x = Some (norm * Rpower (x / Ec) alpha * exp (- x / Ec)).
Proof.
  intros HEc Hx. unfold band.low_branch.
  rewrite !divide_regular by lra. simpl.
  rewrite power_regular by (apply Rdiv_lt_0_compat; assumption). reflexivity.
Qed.

Lemma high_branch_regular (norm amp Ec alpha beta x : R) :
  0 < Ec -> 0 < x ->
  band.high_branch norm amp Ec alpha beta x
  = Some (norm * amp * exp (beta - alpha) * Rpower (x / Ec) beta).
Proof.
  intros HEc Hx. unfold band.high_branch.
  rewrite divide_regular by lra. simpl.
  rewrite power_regular by (apply Rdiv_lt_0_compat; assumption). reflexivity.
Qed.

Lemma split_energy_pos (alpha beta Ec : R) :
  beta < alpha -> 0 < Ec -> 0 < band.split_energy alpha beta Ec.
Proof. intros Hab HEc. unfold band.split_energy. apply Rmult_lt_0_compat; lra. Qed.

Lemma low_branch_at_split (norm alpha beta Ec : R) :
  beta < alpha -> 0 < Ec ->
  band.low_branch norm Ec alpha (band.split_energy alpha beta Ec)
  = Some (norm * Rpower (alpha - beta) alpha * exp (beta - alpha)).
Proof.
  intros Hab HEc.
  rewrite low_branch_regular by (try apply split_energy_pos; assumption).
  unfold band.split_energy.
  replace ((alpha - beta) * Ec / Ec) with (alpha - beta) by (field; lra).
  replace (- ((alpha - beta) * Ec) / Ec) with (beta - alpha) by (field; lra).
  reflexivity.
Qed.

Lemma high_branch_at_split (norm alpha beta Ec : R) :
  beta < alpha -> 0 < Ec ->
  band.high_branch norm (Rpower (alpha - beta) (alpha - beta)) Ec alpha beta
    (band.split_energy alpha beta Ec)
  = Some (norm * Rpower (alpha - beta) alpha * exp (beta - alpha)).
Proof.
  intros Hab HEc.
  rewrite high_branch_regular by (try apply split_energy_pos; assumption).
  unfold band.split_energy.
  replace ((alpha - beta) * Ec / Ec) with (alpha - beta) by (field; lra).
  f_equal.
  assert (Hsum : Rpower (alpha - beta) alpha
                 = Rpower (alpha - beta) (alpha - beta) * Rpower (alpha - beta) beta)
    by (rewrite <- Rpower_plus; f_equal; lra).
  rewrite Hsum. ring.
Qed.

Lemma Rpower_div (x y z : R) :
  0 < x -> 0 < y -> Rpower (x / y) z = Rpower x z / Rpower y z.
Proof.
  intros Hx Hy. unfold Rpower, Rdiv.
  rewrite ln_mult by (try apply Rinv_0_lt_compat; assumption).
  rewrite ln_Rinv by assumption.
  replace (z * (ln x + - ln y)) with (z * ln x + - (z * ln y)) by ring.
  rewrite exp_plus, exp_Ropp. reflexivity.
Qed.

Lemma Rpower_succ (x z : R) : 0 < x -> Rpower x (1 + z) = x * Rpower x z.
Proof. intros Hx. rewrite Rpower_plus, Rpower_1 by assumption. reflexivity. Qed.

(** X15.  Both forms of [ggrb_int_pl] are the integral from [Emin] of the
    energy flux [E * N(E)] of the high-energy branch [N] taken with unit
    normalisation: on positive energies, with [a > b] and [Ec > 0], the
    returned value as a function of [Emax] vanishes at [Emin] and has the
    derivative [E * N(E)]; the logarithm is the value of the same integral
    at the exponent where the polynomial form divides by zero. *)
Lemma ggrb_int_pl_antiderivative (a b Ec Emin : R) :
  b < a -> 0 < Ec -> 0 < Emin ->
  exists G : R -> R,
    (forall E, 0 < E -> band.ggrb_int_pl a b Ec Emin E = Returns (G E)) /\
    G Emin = 0 /\
    (forall E, 0 < E ->
       exists v, band.high_branch 1 (Rpower (a - b) (a - b)) Ec a b E = Some v /\
                 derivable_pt_lim G E (E * v)).
Proof.
  intros Hab HEc HEmin.
  pose (pre := Rpower (a - b) (a - b) * exp (b - a) / Rpower Ec b).
  assert (Hintegrand : forall E, 0 < E ->
            E * (1 * Rpower (a - b) (a - b) * exp (b - a) * Rpower (E / Ec) b)
            = pre * Rpower E (1 + b)).
  { intros E HE. rewrite Rpower_div, Rpower_succ by assumption.
    unfold pre. field. apply Rpower_neq_0. }
  destruct (Req_dec b (-2)) as [Hb | Hb].
  - exists (fun E => pre * ln (E / Emin)). split; [| split].
    + intros E HE.
      apply ggrb_int_pl_logarithmic; assumption.
    + replace (Emin / Emin) with 1 by (field; lra). rewrite ln_1. ring.
    + intros E HE. eexists. split; [apply high_branch_regular; assumption |].
      rewrite (Hintegrand E HE), Hb.
      replace (pre * Rpower E (1 + -2)) with (pre * (/ (E / Emin) * (1 * / Emin + E * 0))).
      * change (derivable_pt_lim
                  (mult_real_fct pre (comp ln (mult_fct id (fct_cte (/ Emin))))) E
                  (pre * (/ (E / Emin) * (1 * / Emin + E * 0)))).
        apply derivable_pt_lim_scal.
        apply (derivable_pt_lim_comp (mult_fct id (fct_cte (/ Emin))) ln).
        -- apply (derivable_pt_lim_mult id (fct_cte (/ Emin)));
             [apply derivable_pt_lim_id | apply derivable_pt_lim_const].
        -- apply derivable_pt_lim_ln. unfold mult_fct, id, fct_cte.
           apply Rmult_lt_0_compat; [assumption | apply Rinv_0_lt_compat; assumption].
      * replace (1 + -2) with (Ropp 1) by ring.
        rewrite Rpower_Ropp, Rpower_1 by assumption. field. lra.
  - exists (fun E => pre / (2 + b) * (Rpower E (2 + b) - Rpower Emin (2 + b))).
    split; [| split].
    + intros E HE.
      apply ggrb_int_pl_polynomial; assumption.
    + ring.
    + intros E HE. eexists. split; [apply high_branch_regular; assumption |].
      rewrite (Hintegrand E HE).
      replace (pre * Rpower E (1 + b))
        with (pre / (2 + b) * ((2 + b) * Rpower E (2 + b - 1) - 0)).
      * change (derivable_pt_lim
                  (mult_real_fct (pre / (2 + b))
                     (minus_fct (fun E => Rpower E (2 + b)) (fct_cte (Rpower Emin (2 + b)))))
                  E (pre / (2 + b) * ((2 + b) * Rpower E (2 + b - 1) - 0))).
        apply derivable_pt_lim_scal. apply derivable_pt_lim_minus.
        -- apply derivable_pt_lim_power. assumption.
        -- apply derivable_pt_lim_const.
      * replace (2 + b - 1) with (1 + b) by ring. field. lra.
Qed.

(** C2.  For [alpha > beta] and [Ec > 0], with the split energy
    [Esplit = (alpha - beta) * Ec] inside the band [a, b]: at [x = Esplit]
    the low-energy branch [norm * (x/Ec)^alpha * exp(-x/Ec)] and the
    high-energy branch
    [norm * (alpha-beta)^(alpha-beta) * exp(beta-alpha) * (x/Ec)^beta]
    have the same value, [norm * (alpha-beta)^alpha * exp(beta-alpha)]. *)
Theorem band_branches_agree_at_split :
  forall (alpha beta Ec a b : R),
    beta < alpha -> 0 < Ec ->
    let Esplit := band.split_energy alpha beta Ec in
    a <= Esplit <= b ->
    forall norm : R,
      power (alpha - beta) (alpha - beta) = Some (Rpower (alpha - beta) (alpha - beta)) /\
      band.low_branch norm Ec alpha Esplit
      = Some (norm * Rpower (alpha - beta) alpha * exp (beta - alpha)) /\
      band.high_branch norm (Rpower (alpha - beta) (alpha - beta)) Ec alpha beta Esplit
      = band.low_branch norm Ec alpha Esplit.
Proof.
  intros alpha beta Ec a b Hab HEc Esplit _ norm. unfold Esplit.
  split; [apply power_regular; lra |].
  split; [apply low_branch_at_split; assumption |].
  rewrite low_branch_at_split, high_branch_at_split by assumption. reflexivity.
Qed.

(** C2 on the default parameters [alpha = -1], [beta = -2.2] with
    [Ec = 200]: the branches meet at [Esplit = 1.2 * 200]. *)
Lemma band_branches_agree_at_split_witness :
  band.high_branch 1 (Rpower (-1 - -2.2) (-1 - -2.2)) 200 (-1) (-2.2)
    (band.split_energy (-1) (-2.2) 200)
  = band.low_branch 1 200 (-1) (band.split_energy (-1) (-2.2) 200).
Proof.
  apply (band_branches_agree_at_split (-1) (-2.2) 200 1 10000);
    unfold band.split_energy; lra.
Defined.

Lemma Rpower_continuity_pt (y u0 : R) : 0 < u0 -> continuity_pt (fun u => Rpower u y) u0.
Proof.
  intros H. apply derivable_continuous_pt.
  exists (y * Rpower u0 (y - 1)). apply derivable_pt_lim_power. assumption.
Qed.

Lemma quotient_continuity_pt (c x0 : R) : continuity_pt (fun x => x / c) x0.
Proof. apply derivable_continuous_pt. unfold Rdiv. reg. Qed.

Lemma low_shape_continuity_pt (norm Ec alpha x0 : R) :
  0 < Ec -> 0 < x0 ->
  continuity_pt (fun x => norm * Rpower (x / Ec) alpha * exp (- x / Ec)) x0.
Proof.
  intros HEc Hx.
  change (continuity_pt
            (mult_fct (mult_real_fct norm (comp (fun u => Rpower u alpha) (fun x => x / Ec)))
                      (comp exp (fun x => - x / Ec))) x0).
  apply continuity_pt_mult.
  - apply continuity_pt_scal. apply continuity_pt_comp.
    + apply quotient_continuity_pt.
    + apply Rpower_continuity_pt. apply Rdiv_lt_0_compat; assumption.
  - apply continuity_pt_comp.
    + apply derivable_continuous_pt. unfold Rdiv. reg.
    + apply derivable_continuous_pt. apply derivable_exp.
Qed.

Lemma high_shape_continuity_pt (c Ec beta x0 : R) :
  0 < Ec -> 0 < x0 ->
  continuity_pt (fun x => c * Rpower (x / Ec) beta) x0.
Proof.
  intros HEc Hx.
  change (continuity_pt
            (mult_real_fct c (comp (fun u => Rpower u beta) (fun x => x / Ec))) x0).
  apply continuity_pt_scal. apply continuity_pt_comp.
  - apply quotient_continuity_pt.
  - apply Rpower_continuity_pt. apply Rdiv_lt_0_compat; assumption.
Qed.

(** X16.  The output of the Band model as a function of the coordinate is
    continuous at the join, for [alpha > beta] and [Ec > 0]: near [Esplit]
    every element (the low-energy branch below [Esplit], the high-energy
    branch from [Esplit] on) has a real value, as close to the value at
    [Esplit] as wished. *)
Lemma band_continuous_at_split (norm alpha beta Ec : R) :
  beta < alpha -> 0 < Ec ->
  let Esplit := band.split_energy alpha beta Ec in
  let amp := Rpower (alpha - beta) (alpha - beta) in
  let element := fun x => if Rltb x Esplit
                          then band.low_branch norm Ec alpha x
                          else band.high_branch norm amp Ec alpha beta x in
  forall eps : R, 0 < eps ->
  exists delta : R, 0 < delta /\
    forall x : R, Rabs (x - Esplit) < delta ->
      exists v v0 : R,
        element x = Some v /\ element Esplit = Some v0 /\ Rabs (v - v0) < eps.
Proof.
  intros Hab HEc Esplit amp element eps Heps.
  assert (HE : 0 < Esplit) by (apply split_energy_pos; assumption).
  pose (v0 := norm * Rpower (alpha - beta) alpha * exp (beta - alpha)).
  assert (Hjoin : element Esplit = Some v0).
  { unfold element. destruct (Rltb_reflect Esplit Esplit); [lra |].
    apply high_branch_at_split; assumption. }
  assert (Hlow0 : norm * Rpower (Esplit / Ec) alpha * exp (- Esplit / Ec) = v0).
  { pose proof (low_branch_at_split norm alpha beta Ec Hab HEc) as H.
    rewrite low_branch_regular in H by assumption. injection H as H. exact H. }
  assert (Hhigh0 : norm * amp * exp (beta - alpha) * Rpower (Esplit / Ec) beta = v0).
  { pose proof (high_branch_at_split norm alpha beta Ec Hab HEc) as H.
    rewrite high_branch_regular in H by assumption. injection H as H. exact H. }
  destruct (low_shape_continuity_pt norm Ec alpha Esplit HEc HE eps Heps)
    as [d1 [Hd1 Hlow]].
  destruct (high_shape_continuity_pt (norm * amp * exp (beta - alpha)) Ec beta Esplit
              HEc HE eps Heps) as [d2 [Hd2 Hhigh]].
  simpl in Hlow, Hhigh. unfold R_dist in Hlow, Hhigh.
  exists (Rmin Esplit (Rmin d1 d2)). split.
  { repeat apply Rmin_glb_lt; assumption. }
  intros x Hx.
  assert (Hx0 : Rabs (x - Esplit) < Esplit)
    by (eapply Rlt_le_trans; [exact Hx | apply Rmin_l]).
  assert (Hx1 : Rabs (x - Esplit) < d1)
    by (eapply Rlt_le_trans; [exact Hx |];
        eapply Rle_trans; [apply Rmin_r | apply Rmin_l]).
  assert (Hx2 : Rabs (x - Esplit) < d2)
    by (eapply Rlt_le_trans; [exact Hx |];
        eapply Rle_trans; [apply Rmin_r | apply Rmin_r]).
  assert (Hpos : 0 < x).
  { apply Rabs_def2 in Hx0. lra. }
  destruct (Req_dec x Esplit) as [-> | Hneq].
  { exists v0, v0. rewrite Hjoin. repeat split.
    replace (v0 - v0) with 0 by ring. rewrite Rabs_R0. assumption. }
  unfold element at 1. destruct (Rltb_reflect x Esplit).
  - eexists. exists v0. split; [apply low_branch_regular; assumption |].
    split; [exact Hjoin |].
    rewrite <- Hlow0. apply Hlow. split; [| exact Hx1].
    split; [exact I | intros E; apply Hneq; symmetry; exact E].
  - eexists. exists v0. split; [apply high_branch_regular; assumption |].
    split; [exact Hjoin |].
    rewrite <- Hhigh0. apply Hhigh. split; [| exact Hx2].
    split; [exact I | intros E; apply Hneq; symmetry; exact E].
Qed.

(** ** Which exceptions a computation can raise *)

Lemma raises_only_Returns {A : Type} (P : exn -> Prop) (v : A) : raises_only P (Returns v).
Proof. intros e H; discriminate H. Qed.

Lemma raises_only_scalar (P : exn -> Prop) (o : option R) : raises_only P (scalar o).
Proof. intros e H; destruct o; discriminate H. Qed.

Lemma raises_only_bind {A B : Type} (P : exn -> Prop) (c : outcome A) (k : A -> outcome B) :
  raises_only P c -> (forall v, raises_only P (k v)) -> raises_only P (bind c k).
Proof.
  intros Hc Hk e H. destruct c as [v | e' |]; simpl in H.
  - exact (Hk v e H).
  - injection H as <-. apply Hc. reflexivity.
  - discriminate H.
Qed.

Ltac raises_only_steps :=
  repeat first
    [ apply raises_only_Returns
    | apply raises_only_scalar
    | apply raises_only_bind; [| intros ?] ].

Section BandProperties.

Variable gammaincc : R -> R -> option R.
Variable gamma : R -> option R.

Lemma ggrb_int_cpl_never_raises (P : exn -> Prop) (a Ec Emin Emax : R) :
  raises_only P (band.ggrb_int_cpl gammaincc gamma a Ec Emin Emax).
Proof. unfold band.ggrb_int_cpl. raises_only_steps. Qed.

Lemma ggrb_int_pl_never_raises (P : exn -> Prop) (a b Ec Emin Emax : R) :
  raises_only P (band.ggrb_int_pl a b Ec Emin Emax).
Proof.
  unfold band.ggrb_int_pl, band.ggrb_pre.
  raises_only_steps. destruct (negb (Reqb b (-2))); raises_only_steps.
Qed.

Lemma cutoff_energy_never_raises (P : exn -> Prop) (alpha xp : R) :
  raises_only P (band.cutoff_energy alpha xp).
Proof. unfold band.cutoff_energy. destruct (Reqb alpha (-2)); raises_only_steps. Qed.

Lemma integrated_flux_raises_only (alpha beta Ec Esplit a b opt : R) :
  raises_only (fun e => e = RuntimeError "Esplit > emax!")
    (band.integrated_flux gammaincc gamma alpha beta Ec Esplit a b opt).
Proof.
  unfold band.integrated_flux.
  destruct (Reqb opt 0); [apply ggrb_int_cpl_never_raises |].
  destruct (Rleb a Esplit && Rleb Esplit b).
  - apply raises_only_bind; [apply ggrb_int_cpl_never_raises | intros i1].
    apply raises_only_bind; [apply ggrb_int_pl_never_raises | intros i2].
    apply raises_only_Returns.
  - destruct (Rltb Esplit a); [apply ggrb_int_pl_never_raises |].
    intros e H. injection H as <-. reflexivity.
Qed.

(** The cutoff energy always has a value: the test on [alpha == -2]
    keeps the divisor [2 + alpha] away from zero. *)
Lemma cutoff_energy_returns (alpha xp : R) :
  band.cutoff_energy alpha xp
  = Returns (if Reqb alpha (-2) then xp / 0.0001 else xp / (2 + alpha)).
Proof.
  unfold band.cutoff_energy. destruct (Reqb_reflect alpha (-2)) as [E | N].
  - rewrite divide_regular by lra. reflexivity.
  - rewrite divide_regular by lra. reflexivity.
Qed.

(** C10.  [band.evaluate] checks [opt == 0 or opt == 1] first: with any
    other [opt] the call ends in the AssertionError whatever the other
    arguments are, and with [opt] equal to 0 or 1 no AssertionError is
    raised (the only exception left is the RuntimeError of the
    integrated flux). *)
Theorem band_evaluate_opt_assertion :
  forall (x : list R) (alpha beta xp F a b opt : R),
    (opt <> 0 /\ opt <> 1 ->
     band.evaluate gammaincc gamma x alpha beta xp F a b opt
     = Raises (AssertionError "Opt must be either 0 or 1")) /\
    (opt = 0 \/ opt = 1 ->
     (forall msg, band.evaluate gammaincc gamma x alpha beta xp F a b opt
                  <> Raises (AssertionError msg)) /\
     raises_only (fun e => e = RuntimeError "Esplit > emax!")
       (band.evaluate gammaincc gamma x alpha beta xp F a b opt)).
Proof.
  intros x alpha beta xp F a b opt. split.
  - intros [H0 H1]. unfold band.evaluate.
    destruct (Reqb_reflect opt 0); [contradiction |].
    destruct (Reqb_reflect opt 1); [contradiction |].
    reflexivity.
  - intros Hopt.
    assert (Hguard : Reqb opt 0 || Reqb opt 1 = true).
    { destruct Hopt as [-> | ->];
        destruct (Reqb_reflect 0 0), (Reqb_reflect 1 1), (Reqb_reflect 1 0),
                 (Reqb_reflect 0 1); simpl; try reflexivity; lra. }
    assert (Honly : raises_only (fun e => e = RuntimeError "Esplit > emax!")
              (band.evaluate gammaincc gamma x alpha beta xp F a b opt)).
    { unfold band.evaluate. rewrite Hguard. simpl py_assert.
      apply raises_only_bind; [apply raises_only_Returns | intros _].
      apply raises_only_bind; [apply cutoff_energy_never_raises | intros Ec].
      apply raises_only_bind; [apply integrated_flux_raises_only | intros intflux].
      apply raises_only_bind; [apply raises_only_scalar | intros norm].
      destruct (Reqb opt 0); raises_only_steps. }
    split; [| exact Honly].
    intros msg H. apply Honly in H. discriminate H.
Qed.

(** With [opt == 0] the output is the cutoff power law on the whole
    array, normalised by the incomplete-gamma integral over [a, b]. *)
Lemma band_evaluate_cutoff_powerlaw (x : list R) (alpha beta xp F a b : R) :
  let Ec := if Reqb alpha (-2) then xp / 0.0001 else xp / (2 + alpha) in
  band.evaluate gammaincc gamma x alpha beta xp F a b 0
  = (intflux <- band.ggrb_int_cpl gammaincc gamma alpha Ec a b ;;
     norm <- scalar (divide (F * 6.24151e8) intflux) ;;
     Returns (map (band.low_branch norm Ec alpha) x)).
Proof.
  intros Ec. unfold band.evaluate, band.integrated_flux.
  rewrite cutoff_energy_returns. fold Ec.
  destruct (Reqb_reflect 0 0) as [_ | N]; [| contradiction N; reflexivity].
  reflexivity.
Qed.

(** With [opt == 1] the two masked assignments fill every position of
    the output: the low-energy branch below the split energy, the
    high-energy branch from the split energy on. *)
Lemma band_evaluate_band (x : list R) (alpha beta xp F a b : R) :
  let Ec := if Reqb alpha (-2) then xp / 0.0001 else xp / (2 + alpha) in
  let Esplit := (alpha - beta) * Ec in
  band.evaluate gammaincc gamma x alpha beta xp F a b 1
  = (intflux <- band.integrated_flux gammaincc gamma alpha beta Ec Esplit a b 1 ;;
     norm <- scalar (divide (F * 6.24151e8) intflux) ;;
     amp <- scalar (power (alpha - beta) (alpha - beta)) ;;
     Returns (map (fun xi => if Rltb xi Esplit
                             then band.low_branch norm Ec alpha xi
                             else band.high_branch norm amp Ec alpha beta xi) x)).
Proof.
  intros Ec Esplit. unfold band.evaluate.
  rewrite cutoff_energy_returns. fold Ec.
  destruct (Reqb_reflect 1 0) as [E | _]; [lra |].
  destruct (Reqb_reflect 1 1) as [_ | N]; [| contradiction N; reflexivity].
  simpl. unfold band.split_energy. fold Esplit.
  destruct (band.integrated_flux gammaincc gamma alpha beta Ec Esplit a b 1)
    as [intflux | e |]; simpl; try reflexivity.
  destruct (scalar (divide (F * 6.24151e8) intflux)) as [norm | e |]; simpl; try reflexivity.
  destruct (scalar (power (alpha - beta) (alpha - beta))) as [amp | e |]; simpl; try reflexivity.
  f_equal. unfold np_zeros_like, np_invert, np_lt.
  rewrite np_put_take_map, map_map, np_put_take_map.
  apply map_ext; intros xi. destruct (Rltb xi Esplit); reflexivity.
Qed.

(** C4.  In [band.evaluate] the cutoff energy is [xp / (2 + alpha)] for
    every [alpha] other than -2 and [xp / 0.0001] for [alpha == -2], the
    split energy is [(alpha - beta) * Ec], and these are the values the
    rest of the call computes with, for [opt == 0] and for [opt == 1]. *)
Theorem band_cutoff_and_split_energy :
  forall (alpha beta xp : R),
    (alpha <> -2 -> band.cutoff_energy alpha xp = Returns (xp / (2 + alpha))) /\
    (alpha = -2 -> band.cutoff_energy alpha xp = Returns (xp / 0.0001)) /\
    (forall Ec, band.split_energy alpha beta Ec = (alpha - beta) * Ec) /\
    (forall (x : list R) (F a b : R),
        let Ec := if Reqb alpha (-2) then xp / 0.0001 else xp / (2 + alpha) in
        let Esplit := (alpha - beta) * Ec in
        band.evaluate gammaincc gamma x alpha beta xp F a b 0
        = (intflux <- band.ggrb_int_cpl gammaincc gamma alpha Ec a b ;;
           norm <- scalar (divide (F * 6.24151e8) intflux) ;;
           Returns (map (band.low_branch norm Ec alpha) x)) /\
        band.evaluate gammaincc gamma x alpha beta xp F a b 1
        = (intflux <- band.integrated_flux gammaincc gamma alpha beta Ec Esplit a b 1 ;;
           norm <- scalar (divide (F * 6.24151e8) intflux) ;;
           amp <- scalar (power (alpha - beta) (alpha - beta)) ;;
           Returns (map (fun xi => if Rltb xi Esplit
                                   then band.low_branch norm Ec alpha xi
                                   else band.high_branch norm amp Ec alpha beta xi) x))).
Proof.
  intros alpha beta xp. repeat split.
  - intros N. rewrite cutoff_energy_returns.
    destruct (Reqb_reflect alpha (-2)); [contradiction | reflexivity].
  - intros E. rewrite cutoff_energy_returns.
    destruct (Reqb_reflect alpha (-2)); [reflexivity | contradiction].
  - apply band_evaluate_cutoff_powerlaw.
  - apply band_evaluate_band.
Qed.

(** C1.  With [opt == 1], a split energy that is neither inside [a, b]
    nor below [a] lies above [b], and the call ends in the RuntimeError
    of the inconsistent configuration: no value is returned. *)
Theorem band_evaluate_split_above_band :
  forall (x : list R) (alpha beta xp F a b : R),
    let Ec := if Reqb alpha (-2) then xp / 0.0001 else xp / (2 + alpha) in
    let Esplit := (alpha - beta) * Ec in
    ~ (a <= Esplit <= b) ->
    ~ (Esplit < a) ->
    b < Esplit /\
    band.evaluate gammaincc gamma x alpha beta xp F a b 1
    = Raises (RuntimeError "Esplit > emax!").
Proof.
  intros x alpha beta xp F a b Ec Esplit Hout Hnot_below.
  split; [lra |].
  rewrite band_evaluate_band. fold Ec. fold Esplit.
  unfold band.integrated_flux.
  destruct (Reqb_reflect 1 0) as [E | _]; [lra |].
  destruct (Rleb_reflect a Esplit), (Rleb_reflect Esplit b); simpl;
    try (exfalso; apply Hout; split; assumption);
    destruct (Rltb_reflect Esplit a); try contradiction; reflexivity.
Qed.

(** The spec's condition [Esplit > b] alone decides the error only for
    [a <= b]: with [b < Esplit < a] the test [Esplit < a] comes first and
    the power-law integral over [a, b] is taken. *)
Lemma integrated_flux_split_between (alpha beta Ec Esplit a b : R) :
  b < Esplit -> Esplit < a ->
  band.integrated_flux gammaincc gamma alpha beta Ec Esplit a b 1
  = band.ggrb_int_pl alpha beta Ec a b.
Proof.
  intros Hb Ha. unfold band.integrated_flux.
  destruct (Reqb_reflect 1 0) as [E | _]; [lra |].
  destruct (Rleb_reflect a Esplit); [lra |]. simpl.
  destruct (Rltb_reflect Esplit a); [reflexivity | contradiction].
Qed.

(** The output at the join: the coordinate [x = Esplit] is served by the
    high-energy branch and receives the value of the low-energy one. *)
Lemma band_evaluate_at_split (alpha beta xp F a b : R) :
  let Ec := if Reqb alpha (-2) then xp / 0.0001 else xp / (2 + alpha) in
  let Esplit := (alpha - beta) * Ec in
  beta < alpha -> 0 < Ec -> a <= Esplit <= b ->
  band.evaluate gammaincc gamma [Esplit] alpha beta xp F a b 1
  = (i1 <- band.ggrb_int_cpl gammaincc gamma alpha Ec a Esplit ;;
     i2 <- band.ggrb_int_pl alpha beta Ec Esplit b ;;
     norm <- scalar (divide (F * 6.24151e8) (i1 + i2)) ;;
     Returns [band.low_branch norm Ec alpha Esplit]).
Proof.
  intros Ec Esplit Hab HEc [Ha Hb].
  rewrite band_evaluate_band. fold Ec. fold Esplit.
  unfold band.integrated_flux.
  destruct (Reqb_reflect 1 0) as [E | _]; [lra |].
  destruct (Rleb_reflect a Esplit); [| contradiction].
  destruct (Rleb_reflect Esplit b); [| contradiction]. simpl.
  destruct (band.ggrb_int_cpl gammaincc gamma alpha Ec a Esplit) as [i1 | e |];
    simpl; try reflexivity.
  destruct (band.ggrb_int_pl alpha beta Ec Esplit b) as [i2 | e |];
    simpl; try reflexivity.
  destruct (scalar (divide (F * 6.24151e8) (i1 + i2))) as [norm | e |];
    simpl; try reflexivity.
  rewrite power_regular by lra. simpl.
  destruct (Rltb_reflect Esplit Esplit); [lra |].
  change Esplit with (band.split_energy alpha beta Ec).
  rewrite high_branch_at_split, low_branch_at_split by assumption. reflexivity.
Qed.

End BandProperties.

(** C10 on concrete arguments: [opt = 2] is refused, [opt = 1] is not. *)
Lemma band_evaluate_opt_assertion_witness :
  band.evaluate (fun _ _ => None) (fun _ => None) [1] (-1) (-2.2) 200 1 1 10000 2
  = Raises (AssertionError "Opt must be either 0 or 1") /\
  band.evaluate (fun _ _ => None) (fun _ => None) [1] (-1) (-2.2) 200 1 1 10000 1
  <> Raises (AssertionError "Opt must be either 0 or 1").
Proof.
  split.
  - apply (band_evaluate_opt_assertion (fun _ _ => None) (fun _ => None)
             [1] (-1) (-2.2) 200 1 1 10000 2). lra.
  - apply (band_evaluate_opt_assertion (fun _ _ => None) (fun _ => None)
             [1] (-1) (-2.2) 200 1 1 10000 1). right; reflexivity.
Defined.

(** C4 on concrete arguments, one for each case of the cutoff energy. *)
Lemma band_cutoff_and_split_energy_witness :
  band.cutoff_energy (-1) 200 = Returns (200 / (2 + -1)) /\
  band.cutoff_energy (-2) 200 = Returns (200 / 0.0001).
Proof.
  split.
  - apply (band_cutoff_and_split_energy (fun _ _ => None) (fun _ => None) (-1) (-2.2) 200).
    lra.
  - apply (band_cutoff_and_split_energy (fun _ _ => None) (fun _ => None) (-2) (-2.2) 200).
    reflexivity.
Defined.

(** C1 on concrete arguments: [alpha = -1], [beta = -2.2], [xp = 200] give
    [Ec = 200] and [Esplit = 240], above the band [1, 100]. *)
Lemma band_evaluate_split_above_band_witness :
  band.evaluate (fun _ _ => Some 1) (fun _ => Some 1) [10; 500] (-1) (-2.2) 200 1e-6 1 100 1
  = Raises (RuntimeError "Esplit > emax!").
Proof.
  apply (band_evaluate_split_above_band (fun _ _ => Some 1) (fun _ => Some 1)
           [10; 500] (-1) (-2.2) 200 1e-6 1 100).
  - destruct (Reqb_reflect (-1) (-2)); lra.
  - destruct (Reqb_reflect (-1) (-2)); lra.
Defined.

(** ** Unit assignment *)

(** C5.  [bias._set_units] raises the usage error exactly when
    [x_unit != y_unit] and returns otherwise; [synchrotron._set_units]
    raises the usage error when [x_unit] is not an energy, raises it when
    [y_unit] is not a differential photon flux, and returns otherwise,
    leaving the object as it was. *)
Theorem set_units_usage_errors :
  forall (U : Type) (astropy : UnitOps U) (x_unit y_unit : U),
    (forall self : bias.t U,
        ((exists msg, fst (bias._set_units astropy x_unit y_unit self)
                      = Raises (InvalidUsageForFunction msg))
         <-> unit_ne astropy x_unit y_unit = true) /\
        (unit_ne astropy x_unit y_unit = false ->
         fst (bias._set_units astropy x_unit y_unit self) = Returns tt)) /\
    (forall self : synchrotron.t U,
        let current_units := get_units astropy in
        let not_a_flux :=
          synchrotron.is_not_unitless astropy
            (unit_mul astropy y_unit
               (unit_mul astropy
                  (unit_mul astropy (photon_energy current_units) (time current_units))
                  (area current_units))) in
        (synchrotron.is_energy astropy x_unit = false ->
         synchrotron._set_units astropy x_unit y_unit self
         = (Raises (InvalidUsageForFunction
              "Unit for x is not an energy. The function synchrotron can only be used as a spectrum"),
            self)) /\
        (not_a_flux = true ->
         exists msg, synchrotron._set_units astropy x_unit y_unit self
                     = (Raises (InvalidUsageForFunction msg), self)) /\
        (synchrotron.is_energy astropy x_unit = true -> not_a_flux = false ->
         synchrotron._set_units astropy x_unit y_unit self = (Returns tt, self))).
Proof.
  intros U astropy x_unit y_unit. split.
  - intros self. unfold bias._set_units.
    destruct (unit_ne astropy x_unit y_unit); simpl; split.
    + split; [reflexivity | intros _; eexists; reflexivity].
    + discriminate.
    + split; [intros [msg H]; discriminate H | discriminate].
    + reflexivity.
  - intros self current_units not_a_flux. unfold synchrotron._set_units.
    fold current_units. fold not_a_flux.
    destruct (synchrotron.is_energy astropy x_unit), not_a_flux;
      repeat split; intros; try discriminate; try reflexivity; eexists; reflexivity.
Qed.

(** C5 in the dimensional calculus: [bias] refuses keV against seconds
    and accepts keV against keV; [synchrotron] refuses seconds as the
    coordinate unit and accepts keV with a differential photon flux. *)
Lemma set_units_usage_errors_witness :
  let self := {| bias.k := dimensional.parameter "k" 0 |} in
  let syn := {| synchrotron.B := dimensional.parameter "B" 3.24e-6;
                synchrotron.distance := dimensional.parameter "distance" 1;
                synchrotron.emin := dimensional.parameter "emin" 1;
                synchrotron.emax := dimensional.parameter "emax" 510e3;
                synchrotron.need := dimensional.parameter "need" 10 |} in
  (exists msg, fst (bias._set_units dimensional.ops dimensional.keV dimensional.second self)
               = Raises (InvalidUsageForFunction msg)) /\
  fst (bias._set_units dimensional.ops dimensional.keV dimensional.keV self) = Returns tt /\
  (exists msg, synchrotron._set_units dimensional.ops dimensional.second
                 dimensional.photon_flux syn
               = (Raises (InvalidUsageForFunction msg), syn)) /\
  synchrotron._set_units dimensional.ops dimensional.keV dimensional.photon_flux syn
  = (Returns tt, syn).
Proof.
  intros self syn.
  pose proof (set_units_usage_errors dimensional.dim dimensional.ops) as H.
  split; [| split; [| split]].
  - apply (H dimensional.keV dimensional.second). reflexivity.
  - apply (H dimensional.keV dimensional.keV). reflexivity.
  - eexists. apply (H dimensional.second dimensional.photon_flux). reflexivity.
  - apply (H dimensional.keV dimensional.photon_flux); reflexivity.
Defined.

(** C9.  When [x_unit != y_unit], [bias._set_units] raises the usage
    error after the assignment [self.k.unit = x_unit]: the object the
    failed call leaves behind carries the new unit, and differs from the
    object before the call whenever that had another unit or none. *)
Theorem bias_set_units_error_keeps_assignment :
  forall (U : Type) (astropy : UnitOps U) (x_unit y_unit : U) (self : bias.t U),
    unit_ne astropy x_unit y_unit = true ->
    (exists msg, fst (bias._set_units astropy x_unit y_unit self)
                 = Raises (InvalidUsageForFunction msg)) /\
    Param.unit (bias.k (snd (bias._set_units astropy x_unit y_unit self))) = Some x_unit /\
    (Param.unit (bias.k self) <> Some x_unit ->
     snd (bias._set_units astropy x_unit y_unit self) <> self).
Proof.
  intros U astropy x_unit y_unit self Hne. unfold bias._set_units. rewrite Hne. simpl.
  split; [eexists; reflexivity |].
  split; [reflexivity |].
  intros Hold Hsame. apply Hold. rewrite <- Hsame at 1. reflexivity.
Qed.

(** C9 in the dimensional calculus: a [bias] whose [k] has no unit yet,
    given keV for x and seconds for y. *)
Lemma bias_set_units_error_keeps_assignment_witness :
  let self := {| bias.k := dimensional.parameter "k" 0 |} in
  Param.unit (bias.k (snd (bias._set_units dimensional.ops dimensional.keV
                              dimensional.second self)))
  = Some dimensional.keV.
Proof.
  intros self.
  apply (bias_set_units_error_keeps_assignment dimensional.dim dimensional.ops
           dimensional.keV dimensional.second self).
  reflexivity.
Defined.

(** ** The peak energy of the log-parabola *)

(** C8.  For [beta != 0] the property [peak_energy] returns
    [piv * 10^((2 + alpha) / (2 * beta))], computed from the values the
    parameters have at the call, and leaves the object unchanged. *)
Theorem log_parabola_peak_energy_closed_form :
  forall (U : Type) (self : log_parabola.t U),
    Param.value (log_parabola.beta self) <> 0 ->
    log_parabola.peak_energy self
    = (Returns (Param.value (log_parabola.piv self)
                * Rpower 10 ((2 + Param.value (log_parabola.alpha self))
                             / (2 * Param.value (log_parabola.beta self)))),
       self).
Proof.
  intros U self Hbeta. unfold log_parabola.peak_energy.
  rewrite divide_regular by lra. simpl.
  rewrite power_regular by lra. reflexivity.
Qed.

(** Outside the precondition of C8 the quotient of the exponent is
    singular and no value is computed. *)
Lemma log_parabola_peak_energy_singular (U : Type) (self : log_parabola.t U) :
  Param.value (log_parabola.beta self) = 0 ->
  log_parabola.peak_energy self = (Singular, self).
Proof.
  intros Hbeta. unfold log_parabola.peak_energy.
  rewrite Hbeta, Rmult_0_r, divide_by_zero. reflexivity.
Qed.

(** C8 on the default parameters [piv = 1], [alpha = -2], [beta = 1]. *)
Lemma log_parabola_peak_energy_closed_form_witness :
  let self := {| log_parabola.K := dimensional.parameter "K" 0;
                 log_parabola.piv := dimensional.parameter "piv" 1;
                 log_parabola.alpha := dimensional.parameter "alpha" (-2.0);
                 log_parabola.beta := dimensional.parameter "beta" 1.0 |} in
  log_parabola.peak_energy self = (Returns (1 * Rpower 10 ((2 + -2.0) / (2 * 1.0))), self).
Proof.
  intros self.
  apply (log_parabola_peak_energy_closed_form dimensional.dim self).
  simpl. lra.
Defined.

(** * Further properties of the catalogue *)

(** ** Element-wise reading of the arrays with partial elements *)

Lemma elementwise_array (f : R -> option R) (x : list R) :
  elementwise f (np_array x) = map f x.
Proof. unfold elementwise, np_array. rewrite map_map. reflexivity. Qed.

Lemma elementwise_map {A : Type} (g : R -> option R) (f : A -> option R) (x : list A) :
  elementwise g (map f x)
  = map (fun xi => match f xi with Some v => g v | None => None end) x.
Proof. unfold elementwise. rewrite map_map. reflexivity. Qed.

Lemma elementwise2_map {A : Type} (f : R -> R -> option R) (g h : A -> option R)
      (x : list A) :
  elementwise2 f (map g x) (map h x)
  = map (fun xi => match g xi, h xi with
                   | Some u, Some v => f u v
                   | _, _ => None
                   end) x.
Proof. induction x as [|xi x IH]; simpl; [reflexivity | now rewrite IH]. Qed.

Lemma np_where_arrays_map {A B : Type} (c : A -> bool) (f g : A -> B) (x : list A) :
  np_where_arrays (map c x) (map f x) (map g x)
  = map (fun xi => if c xi then f xi else g xi) x.
Proof. induction x as [|xi x IH]; simpl; [reflexivity | now rewrite IH]. Qed.

Lemma map_ext_Forall {A B : Type} (P : A -> Prop) (f g : A -> B) (x : list A) :
  Forall P x -> (forall xi, P xi -> f xi = g xi) -> map f x = map g x.
Proof.
  intros HP Hfg. induction HP as [|xi x Hxi _ IH]; simpl; [reflexivity |].
  rewrite (Hfg xi Hxi), IH. reflexivity.
Qed.

Lemma Rpower_base_1 (y : R) : Rpower 1 y = 1.
Proof. unfold Rpower. rewrite ln_1, Rmult_0_r. apply exp_0. Qed.

Lemma Rpower_mult_base (x y z : R) :
  0 < x -> 0 < y -> Rpower (x * y) z = Rpower x z * Rpower y z.
Proof.
  intros Hx Hy. unfold Rpower. rewrite ln_mult by assumption.
  rewrite Rmult_plus_distr_l. apply exp_plus.
Qed.

(** A power with a positive base determines the base when the exponent
    is not zero, and the exponent when the base is not one. *)
Lemma Rpower_inj_base (x y z : R) :
  0 < x -> 0 < y -> z <> 0 -> Rpower x z = Rpower y z -> x = y.
Proof.
  intros Hx Hy Hz H. unfold Rpower in H. apply exp_inv in H.
  apply ln_inv; try assumption. apply (Rmult_eq_reg_l z); assumption.
Qed.

Lemma Rpower_inj_exponent (x y z : R) :
  0 < x -> x <> 1 -> Rpower x y = Rpower x z -> y = z.
Proof.
  intros Hx H1 H. unfold Rpower in H. apply exp_inv in H.
  apply (Rmult_eq_reg_r (ln x)); [exact H | apply ln_neq_0; assumption].
Qed.

(** ** powerlaw *)

Lemma powerlaw_evaluate_map (x : list R) (K piv index : R) :
  powerlaw.evaluate x K piv index
  = map (fun xi => match divide xi piv with
                   | Some q => match power q index with
                               | Some p => Some (K * p)
                               | None => None
                               end
                   | None => None
                   end) x.
Proof.
  unfold powerlaw.evaluate, np_mul_s, np_power_s, np_div_s.
  rewrite elementwise_array, !elementwise_map.
  apply map_ext; intros xi. destruct (divide xi piv); reflexivity.
Qed.

(** X1.  [powerlaw.evaluate] with a positive pivot: the value at the pivot
    is the normalisation [K], and on positive coordinates rescaling the
    coordinates by [c > 0] rescales every value by [c^index]. *)
Theorem powerlaw_pivot_and_scaling :
  forall (x : list R) (K piv index c : R),
    0 < piv -> 0 < c -> Forall (fun xi => 0 < xi) x ->
    powerlaw.evaluate [piv] K piv index = [Some K] /\
    powerlaw.evaluate x K piv index
    = map (fun xi => Some (K * Rpower (xi / piv) index)) x /\
    powerlaw.evaluate (map (fun xi => c * xi) x) K piv index
    = np_mul_s (Rpower c index) (powerlaw.evaluate x K piv index).
Proof.
  intros x K piv index c Hpiv Hc Hx.
  assert (Hreg : forall xi, 0 < xi ->
            match divide xi piv with
            | Some q => match power q index with
                        | Some p => Some (K * p)
                        | None => None
                        end
            | None => None
            end = Some (K * Rpower (xi / piv) index)).
  { intros xi Hxi. rewrite divide_regular by lra.
    rewrite power_regular by (apply Rdiv_lt_0_compat; assumption). reflexivity. }
  split; [| split].
  - rewrite powerlaw_evaluate_map. simpl. rewrite (Hreg piv Hpiv).
    replace (piv / piv) with 1 by (field; lra).
    rewrite Rpower_base_1, Rmult_1_r. reflexivity.
  - rewrite powerlaw_evaluate_map.
    apply (map_ext_Forall (fun xi => 0 < xi)); assumption.
  - rewrite !powerlaw_evaluate_map. unfold np_mul_s.
    rewrite elementwise_map, map_map.
    apply (map_ext_Forall (fun xi => 0 < xi)); [assumption |].
    intros xi Hxi. rewrite (Hreg xi Hxi).
    rewrite (Hreg (c * xi)) by (apply Rmult_lt_0_compat; assumption).
    f_equal. replace (c * xi / piv) with (c * (xi / piv)) by (field; lra).
    rewrite Rpower_mult_base by (try apply Rdiv_lt_0_compat; assumption). ring.
Qed.

(** X1 on the defaults [K = 1], [piv = 1], [index = -2], rescaled by 10. *)
Lemma powerlaw_pivot_and_scaling_witness :
  powerlaw.evaluate [1] 1 1 (-2) = [Some 1] /\
  powerlaw.evaluate (map (fun xi => 10 * xi) [1; 10]) 1 1 (-2)
  = np_mul_s (Rpower 10 (-2)) (powerlaw.evaluate [1; 10] 1 1 (-2)).
Proof.
  assert (Hx : Forall (fun xi => 0 < xi) [1; 10])
    by (repeat constructor; lra).
  destruct (powerlaw_pivot_and_scaling [1; 10] 1 1 (-2) 10 Rlt_0_1
              ltac:(lra) Hx) as [Hpivot [_ Hscale]].
  split; [exact Hpivot | exact Hscale].
Defined.

(** ** powerlaw_flux *)

Lemma powerlaw_flux_evaluate_regular (x : list R) (F index a b : R) :
  0 < a -> 0 < b -> a <> b -> index <> -1 ->
  Forall (fun xi => 0 < xi) x ->
  powerlaw_flux.evaluate x F index a b
  = Returns (map (fun xi => Some (F * (index + 1)
                                  / (Rpower b (index + 1) - Rpower a (index + 1))
                                  * Rpower xi index)) x).
Proof.
  intros Ha Hb Hab Hindex Hx. unfold powerlaw_flux.evaluate.
  rewrite !power_regular by assumption. simpl.
  rewrite divide_regular.
  - simpl. f_equal. unfold np_mul_s, np_power_s.
    rewrite elementwise_array, elementwise_map.
    apply (map_ext_Forall (fun xi => 0 < xi)); [assumption |].
    intros xi Hxi. rewrite power_regular by assumption. reflexivity.
  - intros H. apply Hab. symmetry.
    apply (Rpower_inj_base b a (index + 1)); try assumption; lra.
Qed.

(** X2.  [powerlaw_flux.evaluate] is normalised by its flux: for a band
    [a <> b] of positive bounds and [index <> -1], the values on positive
    coordinates are those of a function whose integral from [a] to [b] is
    [F] (it has an antiderivative [G] with [G b - G a = F]). *)
Theorem powerlaw_flux_integral_is_F :
  forall (F index a b : R),
    0 < a -> 0 < b -> a <> b -> index <> -1 ->
    exists g G : R -> R,
      (forall x : list R, Forall (fun xi => 0 < xi) x ->
         powerlaw_flux.evaluate x F index a b = Returns (map (fun xi => Some (g xi)) x)) /\
      (forall xi : R, 0 < xi -> derivable_pt_lim G xi (g xi)) /\
      G b - G a = F.
Proof.
  intros F index a b Ha Hb Hab Hindex.
  pose (D := Rpower b (index + 1) - Rpower a (index + 1)).
  assert (HD : D <> 0).
  { unfold D. intros H. apply Hab. symmetry.
    apply (Rpower_inj_base b a (index + 1)); try assumption; lra. }
  exists (fun xi => F * (index + 1) / D * Rpower xi index).
  exists (fun xi => F / D * Rpower xi (index + 1)).
  split; [| split].
  - intros x Hx. apply powerlaw_flux_evaluate_regular; assumption.
  - intros xi Hxi.
    replace (F * (index + 1) / D * Rpower xi index)
      with (F / D * ((index + 1) * Rpower xi (index + 1 - 1))).
    + change (derivable_pt_lim (mult_real_fct (F / D) (fun t => Rpower t (index + 1)))
                xi (F / D * ((index + 1) * Rpower xi (index + 1 - 1)))).
      apply derivable_pt_lim_scal. apply derivable_pt_lim_power. assumption.
    + replace (index + 1 - 1) with index by ring. field. exact HD.
  - cbv beta. unfold D in *. field. exact HD.
Qed.

(** X2 on the default band [1, 100] with [index = -2]. *)
Lemma powerlaw_flux_integral_is_F_witness :
  exists g G : R -> R,
    (forall x : list R, Forall (fun xi => 0 < xi) x ->
       powerlaw_flux.evaluate x 1 (-2) 1 100 = Returns (map (fun xi => Some (g xi)) x)) /\
    (forall xi : R, 0 < xi -> derivable_pt_lim G xi (g xi)) /\
    G 100 - G 1 = 1.
Proof.
  apply (powerlaw_flux_integral_is_F 1 (-2) 1 100); lra.
Defined.

(** X3.  [powerlaw_flux.evaluate] has no value when the defining integral
    degenerates: for [index = -1], where [b**gp1 - a**gp1] is [1 - 1], and
    for an empty band [a = b]. *)
Theorem powerlaw_flux_degenerate :
  forall (x : list R) (F index a b : R),
    index = -1 \/ a = b ->
    powerlaw_flux.evaluate x F index a b = Singular.
Proof.
  intros x F index a b [Hindex | Hab]; unfold powerlaw_flux.evaluate.
  - assert (Hpow : forall t, power t (index + 1) = Some 1).
    { intros t. unfold power. replace (index + 1) with 0 by lra.
      destruct (Rltb_reflect 0 t).
      - unfold Rpower. rewrite Rmult_0_l, exp_0. reflexivity.
      - destruct (Reqb_reflect 0 0) as [_ | N]; [reflexivity | contradiction N; reflexivity]. }
    rewrite !Hpow. simpl.
    replace (1 - 1) with 0 by ring. rewrite divide_by_zero. reflexivity.
  - subst b. destruct (power a (index + 1)) as [p |]; simpl; [| reflexivity].
    replace (p - p) with 0 by ring. rewrite divide_by_zero. reflexivity.
Qed.

(** X3 for the photon index -1 on the default band, and for the band
    [10, 10]. *)
Lemma powerlaw_flux_degenerate_witness :
  powerlaw_flux.evaluate [10] 1 (-1) 1 100 = Singular /\
  powerlaw_flux.evaluate [10] 1 (-2) 10 10 = Singular.
Proof.
  split.
  - apply (powerlaw_flux_degenerate [10] 1 (-1) 1 100). left; reflexivity.
  - apply (powerlaw_flux_degenerate [10] 1 (-2) 10 10). right; reflexivity.
Defined.

(** ** broken_powerlaw *)

Lemma broken_powerlaw_evaluate_map (x : list R) (K xb alpha beta : R) :
  broken_powerlaw.evaluate x K xb alpha beta
  = map (fun xi => match (if Rltb xi xb then power xi alpha else power xi beta) with
                   | Some p => Some (K * p)
                   | None => None
                   end) x.
Proof.
  unfold broken_powerlaw.evaluate, np_mul_s, np_power_s, np_lt.
  rewrite !elementwise_array, np_where_arrays_map, elementwise_map. reflexivity.
Qed.

(** X4.  [broken_powerlaw.evaluate] on positive coordinates is
    [K * x^alpha] below the break and [K * x^beta] from the break on: the
    powers are taken of [x], not of [x / xb].  The value at the break is
    therefore [K * xb^beta], and for [K <> 0] the two branches meet at the
    break only when [alpha = beta] or [xb = 1]. *)
Theorem broken_powerlaw_branches_and_break :
  forall (x : list R) (K xb alpha beta : R),
    0 < xb -> Forall (fun xi => 0 < xi) x ->
    broken_powerlaw.evaluate x K xb alpha beta
    = map (fun xi => Some (K * Rpower xi (if Rltb xi xb then alpha else beta))) x /\
    broken_powerlaw.evaluate [xb] K xb alpha beta = [Some (K * Rpower xb beta)] /\
    (K <> 0 ->
     (K * Rpower xb alpha = K * Rpower xb beta <-> alpha = beta \/ xb = 1)).
Proof.
  intros x K xb alpha beta Hxb Hx.
  assert (Hmap : forall y : list R, Forall (fun xi => 0 < xi) y ->
            broken_powerlaw.evaluate y K xb alpha beta
            = map (fun xi => Some (K * Rpower xi (if Rltb xi xb then alpha else beta))) y).
  { intros y Hy. rewrite broken_powerlaw_evaluate_map.
    apply (map_ext_Forall (fun xi => 0 < xi)); [assumption |].
    intros xi Hxi. destruct (Rltb xi xb); rewrite power_regular by assumption; reflexivity. }
  split; [apply Hmap; assumption |].
  split.
  - rewrite Hmap by (repeat constructor; assumption). simpl.
    destruct (Rltb_reflect xb xb); [lra | reflexivity].
  - intros HK. split.
    + intros H. apply Rmult_eq_reg_l in H; [| exact HK].
      destruct (Req_dec xb 1) as [H1 | H1]; [right; exact H1 | left].
      apply (Rpower_inj_exponent xb); assumption.
    + intros [-> | ->]; [reflexivity |]. rewrite !Rpower_base_1. reflexivity.
Qed.

(** X4 on the defaults [xb = 10], [alpha = -1.5], [beta = -2.5]. *)
Lemma broken_powerlaw_branches_and_break_witness :
  broken_powerlaw.evaluate [1; 10; 100] 1 10 (-1.5) (-2.5)
  = map (fun xi => Some (1 * Rpower xi (if Rltb xi 10 then -1.5 else -2.5))) [1; 10; 100] /\
  broken_powerlaw.evaluate [10] 1 10 (-1.5) (-2.5) = [Some (1 * Rpower 10 (-2.5))].
Proof.
  assert (Hx : Forall (fun xi => 0 < xi) [1; 10; 100])
    by (repeat constructor; lra).
  destruct (broken_powerlaw_branches_and_break [1; 10; 100] 1 10 (-1.5) (-2.5)
              ltac:(lra) Hx) as [Hmap [Hbreak _]].
  split; [exact Hmap | exact Hbreak].
Defined.

(** ** gaussian *)

Lemma Int_part_2 : Int_part 2 = 2%Z.
Proof. symmetry. apply Int_part_spec. simpl. lra. Qed.

(** [np.power(d, 2.)] is the square on every real number. *)
Lemma power_square (d : R) : power d 2.0 = Some (d * d).
Proof.
  replace 2.0 with 2 by lra. unfold power.
  destruct (Rltb_reflect 0 d) as [Hpos | Hnpos].
  - f_equal. replace 2 with (INR 2) by (simpl; lra).
    rewrite Rpower_pow by assumption. simpl. ring.
  - destruct (Reqb_reflect 2 0) as [E | _]; [lra |].
    destruct (Reqb_reflect d 0) as [-> | Hd].
    + destruct (Rltb_reflect 0 2); [| lra]. f_equal. ring.
    + unfold is_integer. rewrite Int_part_2.
      destruct (Reqb_reflect (IZR 2) 2) as [_ | N]; [| contradiction N; reflexivity].
      f_equal. simpl. ring.
Qed.

Lemma sqrt_2PI_pos : 0 < sqrt (2 * PI).
Proof. apply sqrt_lt_R0. pose proof PI_RGT_0. lra. Qed.

Lemma gaussian_evaluate_regular (x : list R) (F mu sigma : R) :
  sigma <> 0 ->
  gaussian.evaluate x F mu sigma
  = Returns (map (fun xi => Some (F * (gaussian.__norm_const / sigma)
                                  * exp (- ((xi - mu) * (xi - mu)) / (2 * (sigma * sigma))))) x).
Proof.
  intros Hsigma. unfold gaussian.evaluate.
  rewrite divide_regular by assumption. rewrite power_square. simpl. f_equal.
  unfold np_mul_s, np_exp, np_div_s, np_neg, np_power_s, np_sub_s.
  rewrite elementwise_array, !elementwise_map.
  apply map_ext; intros xi. rewrite power_square.
  rewrite divide_regular; [reflexivity |].
  assert (0 < sigma * sigma) by nra. lra.
Qed.

(** X5.  [gaussian.evaluate] with [sigma <> 0] is symmetric about [mu] and
    takes the value [F / (sigma * sqrt(2 pi))] at [mu]; for [F >= 0] and
    [sigma > 0] every value lies between 0 and the value at [mu]. *)
Theorem gaussian_symmetric_with_peak_at_mu :
  forall (F mu sigma d : R),
    sigma <> 0 ->
    exists v vmax : R,
      gaussian.evaluate [mu + d; mu - d; mu] F mu sigma
      = Returns [Some v; Some v; Some vmax] /\
      vmax = F / (sigma * sqrt (2 * PI)) /\
      (0 <= F -> 0 < sigma -> 0 <= v <= vmax).
Proof.
  intros F mu sigma d Hsigma.
  pose proof sqrt_2PI_pos as Hsqrt.
  exists (F * (gaussian.__norm_const / sigma) * exp (- (d * d) / (2 * (sigma * sigma)))).
  exists (F * (gaussian.__norm_const / sigma)).
  split; [| split].
  - rewrite gaussian_evaluate_regular by assumption. simpl.
    replace ((mu + d - mu) * (mu + d - mu)) with (d * d) by ring.
    replace ((mu - d - mu) * (mu - d - mu)) with (d * d) by ring.
    replace (- ((mu - mu) * (mu - mu)) / (2 * (sigma * sigma))) with 0
      by (field; lra).
    rewrite exp_0, Rmult_1_r. reflexivity.
  - unfold gaussian.__norm_const. replace 1.0 with 1 by lra. field. lra.
  - intros HF Hpos.
    assert (Hnorm : 0 <= F * (gaussian.__norm_const / sigma)).
    { apply Rmult_le_pos; [assumption |]. unfold gaussian.__norm_const.
      replace 1.0 with 1 by lra.
      apply Rlt_le. apply Rdiv_lt_0_compat; [apply Rdiv_lt_0_compat |]; lra. }
    assert (Hexp : 0 < exp (- (d * d) / (2 * (sigma * sigma))) <= 1).
    { split; [apply exp_pos |]. rewrite <- exp_0.
      destruct (Req_dec d 0) as [-> | Hd].
      - right. f_equal. field. lra.
      - left. apply exp_increasing.
        assert (0 < d * d) by nra. assert (0 < sigma * sigma) by nra.
        assert (0 < (d * d) / (2 * (sigma * sigma)))
          by (apply Rdiv_lt_0_compat; lra).
        replace (- (d * d) / (2 * (sigma * sigma)))
          with (- ((d * d) / (2 * (sigma * sigma)))) by (field; lra).
        lra. }
    split; [apply Rmult_le_pos; lra | nra].
Qed.

(** X5 on the standard normal distribution, one unit from the mean. *)
Lemma gaussian_symmetric_with_peak_at_mu_witness :
  exists v vmax : R,
    gaussian.evaluate [0 + 1; 0 - 1; 0] 1 0 1 = Returns [Some v; Some v; Some vmax] /\
    vmax = 1 / (1 * sqrt (2 * PI)) /\
    (0 <= 1 -> 0 < 1 -> 0 <= v <= vmax).
Proof.
  apply (gaussian_symmetric_with_peak_at_mu 1 0 1 1). lra.
Defined.

(** No value for [sigma = 0]: the normalisation [__norm_const / sigma]
    is the first thing computed. *)
Lemma gaussian_sigma_zero :
  forall (x : list R) (F mu : R), gaussian.evaluate x F mu 0 = Singular.
Proof.
  intros x F mu. unfold gaussian.evaluate. rewrite divide_by_zero. reflexivity.
Qed.

(** ** sin *)

(** X6.  [sin.evaluate] with a frequency [f <> 0] is periodic in the
    coordinate with period [1 / f], and every value lies within
    [-|K|, |K|]. *)
Theorem sin_periodic_and_bounded :
  forall (x : list R) (K f phi : R),
    f <> 0 ->
    sin.evaluate (map (fun xi => xi + 1 / f) x) K f phi = sin.evaluate x K f phi /\
    Forall (fun v => Rabs v <= Rabs K) (sin.evaluate x K f phi).
Proof.
  intros x K f phi Hf. unfold sin.evaluate. split.
  - rewrite map_map. apply map_ext; intros xi. f_equal.
    replace (2 * PI * f * (xi + 1 / f) + phi)
      with (2 * PI * f * xi + phi + 2 * INR 1 * PI) by (simpl; field; assumption).
    apply sin_period.
  - apply Forall_map, Forall_forall. intros xi _.
    rewrite Rabs_mult. rewrite <- (Rmult_1_r (Rabs K)) at 2.
    apply Rmult_le_compat_l; [apply Rabs_pos |].
    apply Rabs_le. apply SIN_bound.
Qed.

(** X6 on the default frequency [1 / (2 pi)], whose period is [2 pi]. *)
Lemma sin_periodic_and_bounded_witness :
  sin.evaluate (map (fun xi => xi + 1 / (1 / (2 * PI))) [0; 1]) 1 (1 / (2 * PI)) 0
  = sin.evaluate [0; 1] 1 (1 / (2 * PI)) 0.
Proof.
  apply (sin_periodic_and_bounded [0; 1] 1 (1 / (2 * PI)) 0).
  pose proof PI_RGT_0 as Hpi.
  apply Rgt_not_eq. apply Rdiv_lt_0_compat; lra.
Defined.

(** ** line, bias and identity *)

(** X7.  The linear functions compose: a [line] after a [line] is the
    [line] with the product of the slopes, [bias] is the [line] of slope 1,
    [identity] is the [bias] by 0, and the [bias] by [-k] undoes the
    [bias] by [k]. *)
Theorem line_bias_identity_compose :
  forall (x : list R) (a1 b1 a2 b2 k : R),
    line.evaluate (line.evaluate x a1 b1) a2 b2
    = line.evaluate x (a2 * a1) (a2 * b1 + b2) /\
    line.evaluate x 1 k = bias.evaluate x k /\
    bias.evaluate x 0 = identity.evaluate x /\
    bias.evaluate (bias.evaluate x k) (- k) = identity.evaluate x.
Proof.
  intros x a1 b1 a2 b2 k.
  unfold line.evaluate, bias.evaluate, identity.evaluate.
  repeat split.
  - rewrite map_map. apply map_ext; intros xi. ring.
  - apply map_ext; intros xi. ring.
  - rewrite <- (map_id x) at 2. apply map_ext; intros xi. ring.
  - rewrite map_map. rewrite <- (map_id x) at 2. apply map_ext; intros xi. ring.
Qed.

(** ** log_parabola *)

Lemma log_parabola_evaluate_map (x : list R) (K piv alpha beta : R) :
  log_parabola.evaluate x K piv alpha beta
  = map (fun xi =>
           match divide xi piv with
           | Some q =>
               match log10 q with
               | Some l =>
                   match power q (alpha - beta * l) with
                   | Some p => Some (K * p)
                   | None => None
                   end
               | None => None
               end
           | None => None
           end) x.
Proof.
  unfold log_parabola.evaluate, np_mul_s, np_power, np_rsub_s, np_log10, np_div_s.
  rewrite elementwise_array, !elementwise_map, elementwise2_map, elementwise_map.
  apply map_ext; intros xi.
  destruct (divide xi piv) as [q |]; [| reflexivity].
  destruct (log10 q); reflexivity.
Qed.

Lemma ln_10_pos : 0 < ln 10.
Proof. rewrite <- ln_1. apply ln_increasing; lra. Qed.

Lemma log10_regular (v : R) : 0 < v -> log10 v = Some (ln v / ln 10).
Proof. intros Hv. unfold log10. destruct (Rltb_reflect 0 v); [reflexivity | contradiction]. Qed.

Lemma log_parabola_evaluate_regular (x : list R) (K piv alpha beta : R) :
  0 < piv -> Forall (fun xi => 0 < xi) x ->
  log_parabola.evaluate x K piv alpha beta
  = map (fun xi => Some (K * Rpower (xi / piv)
                               (alpha - beta * (ln (xi / piv) / ln 10)))) x.
Proof.
  intros Hpiv Hx. rewrite log_parabola_evaluate_map.
  apply (map_ext_Forall (fun xi => 0 < xi)); [assumption |].
  intros xi Hxi. rewrite divide_regular by lra.
  assert (Hq : 0 < xi / piv) by (apply Rdiv_lt_0_compat; assumption).
  rewrite log10_regular, power_regular by assumption. reflexivity.
Qed.

(** X8.  [log_parabola.evaluate] with a positive pivot takes the value [K]
    at the pivot, and without curvature ([beta = 0]) it is the [powerlaw]
    of the same normalisation, pivot and index on positive coordinates. *)
Theorem log_parabola_pivot_and_powerlaw_limit :
  forall (x : list R) (K piv alpha beta : R),
    0 < piv -> Forall (fun xi => 0 < xi) x ->
    log_parabola.evaluate [piv] K piv alpha beta = [Some K] /\
    log_parabola.evaluate x K piv alpha 0 = powerlaw.evaluate x K piv alpha.
Proof.
  intros x K piv alpha beta Hpiv Hx. split.
  - rewrite log_parabola_evaluate_regular by (repeat constructor; assumption).
    simpl. replace (piv / piv) with 1 by (field; lra).
    rewrite Rpower_base_1, Rmult_1_r. reflexivity.
  - rewrite log_parabola_evaluate_regular, powerlaw_evaluate_map by assumption.
    apply (map_ext_Forall (fun xi => 0 < xi)); [assumption |].
    intros xi Hxi. rewrite divide_regular by lra.
    rewrite power_regular by (apply Rdiv_lt_0_compat; assumption).
    rewrite Rmult_0_l, Rminus_0_r. reflexivity.
Qed.

(** X8 on the default pivot 1 with index -2. *)
Lemma log_parabola_pivot_and_powerlaw_limit_witness :
  log_parabola.evaluate [1] 3 1 (-2) 1 = [Some 3] /\
  log_parabola.evaluate [1; 10] 3 1 (-2) 0 = powerlaw.evaluate [1; 10] 3 1 (-2).
Proof.
  apply (log_parabola_pivot_and_powerlaw_limit [1; 10] 3 1 (-2) 1);
    [lra | repeat constructor; lra].
Defined.

(** The spectral energy distribution [x^2 f(x)] of the log-parabola in
    the logarithmic coordinate [t = ln(x / piv)]. *)
Lemma log_parabola_sed (K piv alpha beta x : R) :
  0 < piv -> 0 < x ->
  x * x * (K * Rpower (x / piv) (alpha - beta * (ln (x / piv) / ln 10)))
  = K * piv * piv
    * exp ((2 + alpha) * ln (x / piv) - beta / ln 10 * (ln (x / piv) * ln (x / piv))).
Proof.
  intros Hpiv Hx. pose proof ln_10_pos as H10.
  assert (Hq : 0 < x / piv) by (apply Rdiv_lt_0_compat; assumption).
  set (t := ln (x / piv)).
  assert (Hxt : x = piv * exp t).
  { unfold t. rewrite exp_ln by assumption. field. lra. }
  unfold Rpower. fold t.
  replace ((2 + alpha) * t - beta / ln 10 * (t * t))
    with (t + (t + (alpha - beta * (t / ln 10)) * t)) by (field; lra).
  rewrite !exp_plus. rewrite Hxt at 1 2. ring.
Qed.

(** X9.  The property [peak_energy] of the log-parabola is the peak of its
    spectral energy distribution: for [K >= 0], [piv > 0] and a curvature
    [beta > 0], [x^2 * f(x)] at any coordinate [x > 0] does not exceed its
    value at the energy that [peak_energy] returns, [f] being what
    [evaluate] computes from the same parameter values. *)
Theorem log_parabola_peak_energy_maximises_sed :
  forall (U : Type) (self : log_parabola.t U) (x : R),
    let K := Param.value (log_parabola.K self) in
    let piv := Param.value (log_parabola.piv self) in
    let alpha := Param.value (log_parabola.alpha self) in
    let beta := Param.value (log_parabola.beta self) in
    0 <= K -> 0 < piv -> 0 < beta -> 0 < x ->
    exists Ep fx fp : R,
      log_parabola.peak_energy self = (Returns Ep, self) /\
      0 < Ep /\
      log_parabola.evaluate [x; Ep] K piv alpha beta = [Some fx; Some fp] /\
      x * x * fx <= Ep * Ep * fp.
Proof.
  intros U self x K piv alpha beta HK Hpiv Hbeta Hx.
  pose proof ln_10_pos as H10.
  pose (c := (2 + alpha) / (2 * beta)).
  pose (Ep := piv * Rpower 10 c).
  assert (HEp : 0 < Ep).
  { unfold Ep, Rpower. apply Rmult_lt_0_compat; [assumption | apply exp_pos]. }
  exists Ep.
  exists (K * Rpower (x / piv) (alpha - beta * (ln (x / piv) / ln 10))).
  exists (K * Rpower (Ep / piv) (alpha - beta * (ln (Ep / piv) / ln 10))).
  split; [| split; [exact HEp | split]].
  - unfold log_parabola.peak_energy. fold piv alpha beta.
    rewrite divide_regular by lra. simpl.
    rewrite power_regular by lra. reflexivity.
  - rewrite log_parabola_evaluate_regular by (repeat constructor; assumption).
    reflexivity.
  - rewrite !log_parabola_sed by assumption.
    assert (Hstar : ln (Ep / piv) = c * ln 10).
    { unfold Ep. replace (piv * Rpower 10 c / piv) with (Rpower 10 c) by (field; lra).
      apply ln_Rpower. }
    rewrite Hstar. set (t := ln (x / piv)).
    apply Rmult_le_compat_l; [nra |].
    assert (Hgap : (2 + alpha) * (c * ln 10) - beta / ln 10 * (c * ln 10 * (c * ln 10))
                   - ((2 + alpha) * t - beta / ln 10 * (t * t))
                   = beta / ln 10 * ((t - c * ln 10) * (t - c * ln 10))).
    { unfold c. field. lra. }
    assert (Hsq : 0 <= beta / ln 10 * ((t - c * ln 10) * (t - c * ln 10))).
    { apply Rmult_le_pos; [apply Rlt_le, Rdiv_lt_0_compat; assumption |].
      apply (Rle_0_sqr (t - c * ln 10)). }
    destruct (Rle_lt_or_eq_dec _ _ Hsq) as [Hlt | Heq].
    + left. apply exp_increasing. lra.
    + right. f_equal. lra.
Qed.

(** X9 on the defaults [piv = 1], [alpha = -2], [beta = 1], at [x = 5]
    with [K = 1]. *)
Lemma log_parabola_peak_energy_maximises_sed_witness :
  let self := {| log_parabola.K := dimensional.parameter "K" 1;
                 log_parabola.piv := dimensional.parameter "piv" 1;
                 log_parabola.alpha := dimensional.parameter "alpha" (-2.0);
                 log_parabola.beta := dimensional.parameter "beta" 1.0 |} in
  exists Ep fx fp : R,
    log_parabola.peak_energy self = (Returns Ep, self) /\
    0 < Ep /\
    log_parabola.evaluate [5; Ep] 1 1 (-2.0) 1.0 = [Some fx; Some fp] /\
    5 * 5 * fx <= Ep * Ep * fp.
Proof.
  intros self.
  apply (log_parabola_peak_energy_maximises_sed dimensional.dim self 5); simpl; lra.
Defined.

(** ** Integrals over adjacent and empty bands *)

Lemma bind_Returns_inv {A B : Type} (c : outcome A) (k : A -> outcome B) (v : B) :
  bind c k = Returns v -> exists u, c = Returns u /\ k u = Returns v.
Proof.
  destruct c as [u | e |]; simpl; intros H; try discriminate H.
  exists u. split; [reflexivity | exact H].
Qed.

Lemma scalar_Returns_inv (o : option R) (v : R) : scalar o = Returns v -> o = Some v.
Proof. destruct o; simpl; intros H; [injection H as -> | discriminate H]; reflexivity. Qed.

(** Inversion of a chain of bound steps that returns. *)
Ltac invert_returns H :=
  repeat match type of H with
    | bind _ _ = Returns _ =>
        let u := fresh "u" in
        let Hu := fresh "Hu" in
        apply bind_Returns_inv in H; destruct H as [u [Hu H]]
    end.

Lemma ggrb_int_pl_returns_inv (a b Ec Emin Emax v : R) :
  band.ggrb_int_pl a b Ec Emin Emax = Returns v ->
  exists pre : R,
    band.ggrb_pre a b Ec = Returns pre /\
    ((b <> -2 /\ exists e1 e2, power Emax (2 + b) = Some e1 /\
                                power Emin (2 + b) = Some e2 /\
                                v = pre / (2 + b) * (e1 - e2)) \/
     (b = -2 /\ Emin <> 0 /\ 0 < Emax / Emin /\ v = pre * ln (Emax / Emin))).
Proof.
  intros H.
  destruct (Req_dec b (-2)) as [Hb | Hb].
  - rewrite (proj2 (ggrb_int_pl_branches a b Ec Emin Emax) Hb) in H.
    invert_returns H. injection H as <-.
    apply scalar_Returns_inv in Hu0, Hu1.
    exists u. split; [exact Hu | right].
    unfold divide in Hu0. destruct (Reqb_reflect Emin 0); [discriminate Hu0 |].
    injection Hu0 as <-.
    unfold log in Hu1. destruct (Rltb_reflect 0 (Emax / Emin)); [| discriminate Hu1].
    injection Hu1 as <-. repeat split; assumption.
  - rewrite (proj1 (ggrb_int_pl_branches a b Ec Emin Emax) Hb) in H.
    invert_returns H. injection H as <-.
    apply scalar_Returns_inv in Hu0, Hu1.
    exists u. split; [exact Hu | left].
    split; [exact Hb |]. exists u0, u1. repeat split; assumption.
Qed.

Section BandIntegrals.

Variable gammaincc : R -> R -> option R.
Variable gamma : R -> option R.

Lemma ggrb_int_cpl_returns_inv (a Ec Emin Emax v : R) :
  band.ggrb_int_cpl gammaincc gamma a Ec Emin Emax = Returns v ->
  Ec <> 0 /\
  exists g1 g2 g : R,
    gammaincc (2 + a) (Emin / Ec) = Some g1 /\
    gammaincc (2 + a) (Emax / Ec) = Some g2 /\
    gamma (2 + a) = Some g /\
    v = - Ec * Ec * (g2 * g - g1 * g).
Proof.
  unfold band.ggrb_int_cpl. intros H. invert_returns H. injection H as <-.
  apply scalar_Returns_inv in Hu, Hu0, Hu1, Hu2, Hu3, Hu4.
  unfold divide in Hu, Hu2. destruct (Reqb_reflect Ec 0); [discriminate Hu |].
  injection Hu as <-. injection Hu2 as <-.
  rewrite Hu1 in Hu4. injection Hu4 as <-.
  split; [assumption |]. exists u0, u3, u1. repeat split; assumption.
Qed.

Lemma ggrb_int_cpl_returns (a Ec Emin Emax g1 g2 g : R) :
  Ec <> 0 ->
  gammaincc (2 + a) (Emin / Ec) = Some g1 ->
  gammaincc (2 + a) (Emax / Ec) = Some g2 ->
  gamma (2 + a) = Some g ->
  band.ggrb_int_cpl gammaincc gamma a Ec Emin Emax
  = Returns (- Ec * Ec * (g2 * g - g1 * g)).
Proof.
  intros HEc H1 H2 Hg. unfold band.ggrb_int_cpl.
  rewrite !divide_regular by assumption. simpl.
  rewrite H1. simpl. rewrite Hg. simpl. rewrite H2. simpl. reflexivity.
Qed.

Lemma ggrb_int_cpl_empty (a Ec E v : R) :
  band.ggrb_int_cpl gammaincc gamma a Ec E E = Returns v -> v = 0.
Proof.
  intros H. apply ggrb_int_cpl_returns_inv in H.
  destruct H as [_ [g1 [g2 [g [Hg1 [Hg2 [_ ->]]]]]]].
  rewrite Hg1 in Hg2. injection Hg2 as <-. ring.
Qed.

Lemma ggrb_int_pl_empty (a b Ec E v : R) :
  band.ggrb_int_pl a b Ec E E = Returns v -> v = 0.
Proof.
  intros H. apply ggrb_int_pl_returns_inv in H.
  destruct H as [pre [_ [[_ [e1 [e2 [He1 [He2 ->]]]]] | [_ [H1 [_ ->]]]]]].
  - rewrite He1 in He2. injection He2 as <-. ring.
  - replace (E / E) with 1 by (field; assumption). rewrite ln_1. ring.
Qed.

(** X10.  The two integrals of the Band normalisation are additive over
    adjacent intervals: when [ggrb_int_cpl] (or [ggrb_int_pl]) returns on
    [E1, E2] and on [E2, E3], it returns their sum on [E1, E3]; and on an
    empty interval [E, E] a returned value is 0. *)
Theorem band_integrals_additive :
  forall (a b Ec E1 E2 E3 i12 i23 : R),
    (band.ggrb_int_cpl gammaincc gamma a Ec E1 E2 = Returns i12 ->
     band.ggrb_int_cpl gammaincc gamma a Ec E2 E3 = Returns i23 ->
     band.ggrb_int_cpl gammaincc gamma a Ec E1 E3 = Returns (i12 + i23)) /\
    (band.ggrb_int_pl a b Ec E1 E2 = Returns i12 ->
     band.ggrb_int_pl a b Ec E2 E3 = Returns i23 ->
     band.ggrb_int_pl a b Ec E1 E3 = Returns (i12 + i23)) /\
    (band.ggrb_int_cpl gammaincc gamma a Ec E1 E1 = Returns i12 -> i12 = 0) /\
    (band.ggrb_int_pl a b Ec E1 E1 = Returns i12 -> i12 = 0).
Proof.
  intros a b Ec E1 E2 E3 i12 i23. split; [| split; [| split]].
  - intros H12 H23.
    apply ggrb_int_cpl_returns_inv in H12, H23.
    destruct H12 as [HEc [g1 [g2 [g [Hg1 [Hg2 [Hg ->]]]]]]].
    destruct H23 as [_ [g2' [g3 [g' [Hg2' [Hg3 [Hg' ->]]]]]]].
    rewrite Hg2 in Hg2'. injection Hg2' as <-.
    rewrite Hg in Hg'. injection Hg' as <-.
    rewrite (ggrb_int_cpl_returns a Ec E1 E3 g1 g3 g) by assumption.
    f_equal. ring.
  - intros H12 H23.
    apply ggrb_int_pl_returns_inv in H12, H23.
    destruct H12 as [pre [Hpre H12]]. destruct H23 as [pre' [Hpre' H23]].
    rewrite Hpre in Hpre'. injection Hpre' as <-.
    destruct H12 as [[Hb [e2 [e1 [He2 [He1 ->]]]]] | [Hb [H1 [Hr12 ->]]]];
      destruct H23 as [[Hb' [e3 [e2' [He3 [He2' ->]]]]] | [Hb' [H2 [Hr23 ->]]]];
      try contradiction.
    + rewrite He2 in He2'. injection He2' as <-.
      rewrite (proj1 (ggrb_int_pl_branches a b Ec E1 E3) Hb), Hpre. simpl.
      rewrite He3. simpl. rewrite He1. simpl. f_equal. ring.
    + assert (Hr13 : E3 / E1 = E3 / E2 * (E2 / E1)) by (field; split; assumption).
      rewrite (proj2 (ggrb_int_pl_branches a b Ec E1 E3) Hb), Hpre. simpl.
      rewrite divide_regular by assumption. simpl.
      rewrite log_regular by (rewrite Hr13; apply Rmult_lt_0_compat; assumption).
      simpl. f_equal. rewrite Hr13, ln_mult by assumption. ring.
  - apply ggrb_int_cpl_empty.
  - apply ggrb_int_pl_empty.
Qed.

Lemma np_put_length {A : Type} (flux : list A) (m : list bool) (vals : list A) :
  List.length (np_put flux m vals) = List.length flux.
Proof.
  revert m vals. induction flux as [|fi flux IH]; intros m vals; [reflexivity |].
  destruct m as [|c m]; [reflexivity |]. simpl.
  destruct c; [destruct vals |]; simpl; rewrite IH; reflexivity.
Qed.

(** X11.  [band.evaluate] on an empty band [a = b] never returns a value,
    whatever the other arguments: the integrated flux it would divide by
    is zero in each of its branches. *)
Theorem band_evaluate_empty_band :
  forall (x : list R) (alpha beta xp F a opt : R) (flux : list (option R)),
    band.evaluate gammaincc gamma x alpha beta xp F a a opt <> Returns flux.
Proof.
  intros x alpha beta xp F a opt flux H.
  unfold band.evaluate in H. invert_returns H.
  assert (Hzero : u1 = 0).
  { clear H Hu2. unfold band.integrated_flux in Hu1.
    destruct (Reqb opt 0); [exact (ggrb_int_cpl_empty _ _ _ _ Hu1) |].
    destruct (Rleb_reflect a (band.split_energy alpha beta u0)) as [Hle | Hnle];
      [destruct (Rleb_reflect (band.split_energy alpha beta u0) a) as [Hge | Hnge] |];
      simpl in Hu1.
    - assert (E : band.split_energy alpha beta u0 = a) by lra.
      rewrite E in Hu1. invert_returns Hu1. injection Hu1 as <-.
      rewrite (ggrb_int_cpl_empty _ _ _ _ Hu2), (ggrb_int_pl_empty _ _ _ _ _ Hu3). ring.
    - destruct (Rltb (band.split_energy alpha beta u0) a);
        [exact (ggrb_int_pl_empty _ _ _ _ _ Hu1) | discriminate Hu1].
    - destruct (Rltb (band.split_energy alpha beta u0) a);
        [exact (ggrb_int_pl_empty _ _ _ _ _ Hu1) | discriminate Hu1]. }
  subst u1. rewrite divide_by_zero in Hu2. discriminate Hu2.
Qed.


End BandIntegrals.

(** X10 on the integrals of the default indices over [10, 100] and
    [100, 1000]. *)
Lemma band_integrals_additive_witness :
  exists i12 i23 : R,
    band.ggrb_int_pl (-1) (-2.2) 200 10 100 = Returns i12 /\
    band.ggrb_int_pl (-1) (-2.2) 200 100 1000 = Returns i23 /\
    band.ggrb_int_pl (-1) (-2.2) 200 10 1000 = Returns (i12 + i23).
Proof.
  eexists. eexists.
  assert (H12 := ggrb_int_pl_polynomial (-1) (-2.2) 200 10 100
                   ltac:(lra) ltac:(lra) ltac:(lra) ltac:(lra) ltac:(lra)).
  assert (H23 := ggrb_int_pl_polynomial (-1) (-2.2) 200 100 1000
                   ltac:(lra) ltac:(lra) ltac:(lra) ltac:(lra) ltac:(lra)).
  split; [exact H12 | split; [exact H23 |]].
  exact (proj1 (proj2 (band_integrals_additive (fun _ _ => None) (fun _ => None)
                         (-1) (-2.2) 200 10 100 1000 _ _)) H12 H23).
Defined.


(** ** The shape of the output *)

Lemma elementwise_length (f : R -> option R) (a : list (option R)) :
  List.length (elementwise f a) = List.length a.
Proof. apply length_map. Qed.

Lemma elementwise2_length (f : R -> R -> option R) (a b : list (option R)) :
  List.length a = List.length b ->
  List.length (elementwise2 f a b) = List.length a.
Proof.
  revert b. induction a as [|ea a IH]; intros [|eb b] H; simpl in *;
    try reflexivity; try discriminate H.
  f_equal. apply IH. injection H as H. exact H.
Qed.

Section Shapes.

Variable gammaincc : R -> R -> option R.
Variable gamma : R -> option R.
Variable gamma_inc : R -> R -> option R.

(** X13.  Every [evaluate] of the catalogue that returns an array returns
    one of the shape of the coordinate array, also the Band model, whose
    output is assembled by two masked assignments. *)
Theorem evaluate_preserves_shape :
  forall (x : list R) (p1 p2 p3 p4 p5 p6 p7 : R) (flux : list (option R)),
    List.length (powerlaw.evaluate x p1 p2 p3) = List.length x /\
    (powerlaw_flux.evaluate x p1 p2 p3 p4 = Returns flux ->
     List.length flux = List.length x) /\
    List.length (broken_powerlaw.evaluate x p1 p2 p3 p4) = List.length x /\
    (gaussian.evaluate x p1 p2 p3 = Returns flux -> List.length flux = List.length x) /\
    List.length (sin.evaluate x p1 p2 p3) = List.length x /\
    List.length (line.evaluate x p1 p2) = List.length x /\
    List.length (identity.evaluate x) = List.length x /\
    List.length (bias.evaluate x p1) = List.length x /\
    List.length (log_parabola.evaluate x p1 p2 p3 p4) = List.length x /\
    (cutoff_powerlaw_flux.evaluate gamma_inc x p1 p2 p3 p4 p5 = Returns flux ->
     List.length flux = List.length x) /\
    (band.evaluate gammaincc gamma x p1 p2 p3 p4 p5 p6 p7 = Returns flux ->
     List.length flux = List.length x).
Proof.
  intros x p1 p2 p3 p4 p5 p6 p7 flux.
  assert (Harray : List.length (np_array x) = List.length x) by apply length_map.
  repeat split.
  - rewrite powerlaw_evaluate_map. apply length_map.
  - intros H. unfold powerlaw_flux.evaluate in H. invert_returns H.
    injection H as <-. unfold np_mul_s, np_power_s.
    rewrite !elementwise_length. exact Harray.
  - rewrite broken_powerlaw_evaluate_map. apply length_map.
  - intros H. unfold gaussian.evaluate in H. invert_returns H.
    injection H as <-. unfold np_mul_s, np_exp, np_div_s, np_neg, np_power_s, np_sub_s.
    rewrite !elementwise_length. exact Harray.
  - apply length_map.
  - apply length_map.
  - apply length_map.
  - rewrite log_parabola_evaluate_map. apply length_map.
  - intros H. unfold cutoff_powerlaw_flux.evaluate in H. invert_returns H.
    injection H as <-.
    unfold np_mul, np_mul_s, np_exp, np_div_s, np_neg, np_power_s.
    rewrite elementwise2_length; rewrite !elementwise_length; try exact Harray.
    reflexivity.
  - intros H. unfold band.evaluate in H. invert_returns H.
    destruct (Reqb p7 0).
    + injection H as <-. apply length_map.
    + invert_returns H. injection H as <-.
      rewrite !np_put_length. apply length_map.
Qed.

End Shapes.

(** X13 on a Gaussian over three coordinates. *)
Lemma evaluate_preserves_shape_witness :
  exists flux : list (option R),
    gaussian.evaluate [-1; 0; 1] 1 0 1 = Returns flux /\ List.length flux = 3%nat.
Proof.
  eexists. split.
  - apply (gaussian_evaluate_regular [-1; 0; 1] 1 0 1). lra.
  - exact (proj1 (proj2 (proj2 (proj2
             (evaluate_preserves_shape (fun _ _ => None) (fun _ => None) (fun _ _ => None)
                [-1; 0; 1] 1 0 1 0 0 0 0 _))))
             (gaussian_evaluate_regular [-1; 0; 1] 1 0 1 ltac:(lra))).
Defined.

(** ** The slope of the Band model at the join *)

Lemma Rpower_pred (r y : R) : 0 < r -> Rpower r y = Rpower r (y - 1) * r.
Proof.
  intros Hr. rewrite <- (Rpower_1 r Hr) at 3. rewrite <- Rpower_plus.
  f_equal. ring.
Qed.

(** X14.  The two branches of the Band model join smoothly: for
    [alpha > beta] and [Ec > 0] the low-energy and the high-energy branch
    expressions, as functions of a positive coordinate, have the same
    derivative at [Esplit = (alpha - beta) * Ec], namely [beta / Esplit]
    times their common value there. *)
Theorem band_slopes_agree_at_split :
  forall (norm alpha beta Ec : R),
    beta < alpha -> 0 < Ec ->
    let Esplit := band.split_energy alpha beta Ec in
    let amp := Rpower (alpha - beta) (alpha - beta) in
    exists (low high : R -> R) (slope : R),
      (forall x : R, 0 < x -> band.low_branch norm Ec alpha x = Some (low x)) /\
      (forall x : R, 0 < x -> band.high_branch norm amp Ec alpha beta x = Some (high x)) /\
      derivable_pt_lim low Esplit slope /\
      derivable_pt_lim high Esplit slope /\
      slope = beta / Esplit * (norm * Rpower (alpha - beta) alpha * exp (beta - alpha)).
Proof.
  intros norm alpha beta Ec Hab HEc Esplit amp.
  assert (HE : 0 < Esplit) by (apply split_energy_pos; assumption).
  assert (Hr : 0 < alpha - beta) by lra.
  assert (Hq : Esplit / Ec = alpha - beta)
    by (unfold Esplit, band.split_energy; field; lra).
  assert (Hq' : - Esplit / Ec = beta - alpha)
    by (unfold Esplit, band.split_energy; field; lra).
  assert (Hamp : amp <> 0) by apply Rpower_neq_0.
  set (P := Rpower (alpha - beta) (alpha - 1)).
  assert (HPa : Rpower (alpha - beta) alpha = P * (alpha - beta))
    by (apply Rpower_pred; assumption).
  assert (HPb : Rpower (alpha - beta) (beta - 1) = P / amp).
  { unfold P, amp, Rdiv. rewrite <- Rpower_Ropp, <- Rpower_plus. f_equal. ring. }
  exists (fun x => norm * Rpower (x / Ec) alpha * exp (- x / Ec)).
  exists (fun x => norm * amp * exp (beta - alpha) * Rpower (x / Ec) beta).
  exists (beta / Esplit * (norm * Rpower (alpha - beta) alpha * exp (beta - alpha))).
  split; [intros x Hx; apply low_branch_regular; assumption |].
  split; [intros x Hx; apply high_branch_regular; assumption |].
  split; [| split; [| reflexivity]].
  - replace (beta / Esplit * (norm * Rpower (alpha - beta) alpha * exp (beta - alpha)))
      with (norm * (alpha * Rpower (Esplit / Ec) (alpha - 1) * (1 * / Ec + Esplit * 0))
            * exp (- Esplit / Ec)
            + norm * Rpower (Esplit / Ec) alpha
              * (exp (- Esplit / Ec) * (- 1 * / Ec + - Esplit * 0))).
    + change (derivable_pt_lim
                (mult_fct
                   (mult_real_fct norm
                      (comp (fun u => Rpower u alpha) (mult_fct id (fct_cte (/ Ec)))))
                   (comp exp (mult_fct (opp_fct id) (fct_cte (/ Ec)))))
                Esplit
                (norm * (alpha * Rpower (Esplit / Ec) (alpha - 1) * (1 * / Ec + Esplit * 0))
                 * exp (- Esplit / Ec)
                 + norm * Rpower (Esplit / Ec) alpha
                   * (exp (- Esplit / Ec) * (- 1 * / Ec + - Esplit * 0)))).
      apply (derivable_pt_lim_mult
               (mult_real_fct norm
                  (comp (fun u => Rpower u alpha) (mult_fct id (fct_cte (/ Ec)))))
               (comp exp (mult_fct (opp_fct id) (fct_cte (/ Ec))))
               Esplit
               (norm * (alpha * Rpower (Esplit / Ec) (alpha - 1) * (1 * / Ec + Esplit * 0)))
               (exp (- Esplit / Ec) * (- 1 * / Ec + - Esplit * 0))).
      * apply derivable_pt_lim_scal.
        apply (derivable_pt_lim_comp (mult_fct id (fct_cte (/ Ec)))
                 (fun u => Rpower u alpha)).
        -- apply (derivable_pt_lim_mult id (fct_cte (/ Ec)));
             [apply derivable_pt_lim_id | apply derivable_pt_lim_const].
        -- apply derivable_pt_lim_power. unfold mult_fct, id, fct_cte.
           apply Rmult_lt_0_compat; [assumption | apply Rinv_0_lt_compat; assumption].
      * apply (derivable_pt_lim_comp (mult_fct (opp_fct id) (fct_cte (/ Ec))) exp).
        -- apply (derivable_pt_lim_mult (opp_fct id) (fct_cte (/ Ec)));
             [apply derivable_pt_lim_opp, derivable_pt_lim_id
             | apply derivable_pt_lim_const].
        -- apply derivable_pt_lim_exp.
    + rewrite Hq, Hq', HPa. fold P.
      unfold Esplit, band.split_energy. field. lra.
  - replace (beta / Esplit * (norm * Rpower (alpha - beta) alpha * exp (beta - alpha)))
      with (norm * amp * exp (beta - alpha)
            * (beta * Rpower (Esplit / Ec) (beta - 1) * (1 * / Ec + Esplit * 0))).
    + change (derivable_pt_lim
                (mult_real_fct (norm * amp * exp (beta - alpha))
                   (comp (fun u => Rpower u beta) (mult_fct id (fct_cte (/ Ec)))))
                Esplit
                (norm * amp * exp (beta - alpha)
                 * (beta * Rpower (Esplit / Ec) (beta - 1) * (1 * / Ec + Esplit * 0)))).
      apply derivable_pt_lim_scal.
      apply (derivable_pt_lim_comp (mult_fct id (fct_cte (/ Ec)))
               (fun u => Rpower u beta)).
      * apply (derivable_pt_lim_mult id (fct_cte (/ Ec)));
          [apply derivable_pt_lim_id | apply derivable_pt_lim_const].
      * apply derivable_pt_lim_power. unfold mult_fct, id, fct_cte.
        apply Rmult_lt_0_compat; [assumption | apply Rinv_0_lt_compat; assumption].
    + rewrite Hq, HPa, HPb.
      unfold Esplit, band.split_energy. field. repeat split; lra.
Qed.

(** X14 on the default indices with [Ec = 200]. *)
Lemma band_slopes_agree_at_split_witness :
  exists (low high : R -> R) (slope : R),
    (forall x : R, 0 < x -> band.low_branch 1 200 (-1) x = Some (low x)) /\
    (forall x : R, 0 < x ->
       band.high_branch 1 (Rpower (-1 - -2.2) (-1 - -2.2)) 200 (-1) (-2.2) x
       = Some (high x)) /\
    derivable_pt_lim low (band.split_energy (-1) (-2.2) 200) slope /\
    derivable_pt_lim high (band.split_energy (-1) (-2.2) 200) slope /\
    slope = -2.2 / band.split_energy (-1) (-2.2) 200
            * (1 * Rpower (-1 - -2.2) (-1) * exp (-2.2 - -1)).
Proof.
  apply (band_slopes_agree_at_split 1 (-1) (-2.2) 200); lra.
Defined.

(** X15 on the default indices with [Ec = 200] and [Emin = 10]. *)
Lemma ggrb_int_pl_antiderivative_witness :
  exists G : R -> R,
    (forall E, 0 < E -> band.ggrb_int_pl (-1) (-2.2) 200 10 E = Returns (G E)) /\
    G 10 = 0 /\
    (forall E, 0 < E ->
       exists v, band.high_branch 1 (Rpower (-1 - -2.2) (-1 - -2.2)) 200 (-1) (-2.2) E
                 = Some v /\
                 derivable_pt_lim G E (E * v)).
Proof.
  apply (ggrb_int_pl_antiderivative (-1) (-2.2) 200 10); lra.
Defined.

(** X16 on the default indices with [Ec = 200], within 1/100. *)
Lemma band_continuous_at_split_witness :
  exists delta : R, 0 < delta /\
    forall x : R, Rabs (x - band.split_energy (-1) (-2.2) 200) < delta ->
      exists v v0 : R,
        (if Rltb x (band.split_energy (-1) (-2.2) 200)
         then band.low_branch 1 200 (-1) x
         else band.high_branch 1 (Rpower (-1 - -2.2) (-1 - -2.2)) 200 (-1) (-2.2) x)
        = Some v /\
        (if Rltb (band.split_energy (-1) (-2.2) 200) (band.split_energy (-1) (-2.2) 200)
         then band.low_branch 1 200 (-1) (band.split_energy (-1) (-2.2) 200)
         else band.high_branch 1 (Rpower (-1 - -2.2) (-1 - -2.2)) 200 (-1) (-2.2)
                (band.split_energy (-1) (-2.2) 200))
        = Some v0 /\
        Rabs (v - v0) < 1 / 100.
Proof.
  apply (band_continuous_at_split 1 (-1) (-2.2) 200); lra.
Defined.

(** ** cutoff_powerlaw_flux *)

Section CutoffPowerlaw.

Variable gamma_inc : R -> R -> option R.

(** X17.  The integral that normalises [cutoff_powerlaw_flux] is a
    difference of one primitive: it is additive over adjacent bands and
    changes sign when the bounds are exchanged, whenever it returns; on an
    empty band [a = b] it is zero, so that [evaluate] never returns a
    value there. *)
Theorem cutoff_powerlaw_flux_integral :
  forall (a b c alpha ec i1 i2 : R),
    (cutoff_powerlaw_flux._integral gamma_inc a b alpha ec = Returns i1 ->
     cutoff_powerlaw_flux._integral gamma_inc b c alpha ec = Returns i2 ->
     cutoff_powerlaw_flux._integral gamma_inc a c alpha ec = Returns (i1 + i2)) /\
    (cutoff_powerlaw_flux._integral gamma_inc a b alpha ec = Returns i1 ->
     cutoff_powerlaw_flux._integral gamma_inc b a alpha ec = Returns (- i1)) /\
    (forall (x : list R) (F : R) (flux : list (option R)),
        cutoff_powerlaw_flux.evaluate gamma_inc x F alpha ec a a <> Returns flux).
Proof.
  intros a b c alpha ec i1 i2.
  unfold cutoff_powerlaw_flux.evaluate, cutoff_powerlaw_flux._integral.
  destruct (cutoff_powerlaw_flux.integrand gamma_inc ec (alpha + 1) a) as [ia | ea |];
    destruct (cutoff_powerlaw_flux.integrand gamma_inc ec (alpha + 1) b) as [ib | eb |];
    destruct (cutoff_powerlaw_flux.integrand gamma_inc ec (alpha + 1) c) as [ic | ec' |];
    simpl; repeat split; intros;
    repeat match goal with
      | H : Returns _ = Returns _ |- _ => injection H as <-
      | H : Raises _ = Returns _ |- _ => discriminate H
      | H : Singular = Returns _ |- _ => discriminate H
      end;
    try (f_equal; ring);
    try (replace (ia - ia) with 0 by ring; rewrite divide_by_zero; simpl);
    try discriminate.
Qed.

End CutoffPowerlaw.

(** X17 with the identity in the place of [gamma_inc], on the bands
    [1, 10] and [10, 100]. *)
Lemma cutoff_powerlaw_flux_integral_witness :
  exists i1 i2 : R,
    cutoff_powerlaw_flux._integral (fun _ q => Some q) 1 10 (-2) 50 = Returns i1 /\
    cutoff_powerlaw_flux._integral (fun _ q => Some q) 10 100 (-2) 50 = Returns i2 /\
    cutoff_powerlaw_flux._integral (fun _ q => Some q) 1 100 (-2) 50 = Returns (i1 + i2).
Proof.
  assert (Hint : forall a b : R,
            cutoff_powerlaw_flux._integral (fun _ q => Some q) a b (-2) 50
            = Returns (- Rpower 50 (-2 + 1) * (b / 50) - - Rpower 50 (-2 + 1) * (a / 50))).
  { intros a b.
    unfold cutoff_powerlaw_flux._integral, cutoff_powerlaw_flux.integrand.
    rewrite power_regular by lra. simpl.
    rewrite !divide_regular by lra. reflexivity. }
  eexists. eexists.
  split; [apply Hint | split; [apply Hint |]].
  exact (proj1 (cutoff_powerlaw_flux_integral (fun _ q => Some q) 1 10 100 (-2) 50 _ _)
           (Hint 1 10) (Hint 10 100)).
Defined.

(** ** The priors outside their intended bounds *)

(** X18.  Neither prior checks its bounds.  [uniform_prior.evaluate] with
    [upper_bound < lower_bound] is 0 everywhere.
    [log_uniform_prior.evaluate] with a negative [lower_bound] and a
    positive [upper_bound] has no value at the coordinate 0 and is the
    negative number [1/x] on the coordinates between [lower_bound] and
    0. *)
Theorem priors_outside_intended_bounds :
  forall (x : list R) (lower_bound upper_bound value : R),
    (upper_bound < lower_bound ->
     uniform_prior.evaluate x lower_bound upper_bound value = map (fun _ => 0) x) /\
    (lower_bound < 0 -> 0 < upper_bound ->
     log_uniform_prior.evaluate [0] lower_bound upper_bound = [None] /\
     (Forall (fun xi => lower_bound < xi < 0) x ->
      log_uniform_prior.evaluate x lower_bound upper_bound
      = map (fun xi => Some (1 / xi)) x /\
      Forall (fun xi => 1 / xi < 0) x)).
Proof.
  intros x lb ub value. split.
  - intros Hinv. rewrite uniform_prior_evaluate_map.
    apply map_ext; intros xi.
    destruct (Rleb_reflect lb xi), (Rleb_reflect xi ub); simpl; try reflexivity; lra.
  - intros Hlb Hub. split.
    + rewrite log_uniform_prior_evaluate_map. simpl.
      destruct (Rltb_reflect lb 0), (Rltb_reflect 0 ub); simpl; try lra.
      rewrite divide_by_zero. reflexivity.
    + intros Hx. split.
      * rewrite log_uniform_prior_evaluate_map.
        apply (map_ext_Forall (fun xi => lb < xi < 0)); [assumption |].
        intros xi [Hl Hr].
        destruct (Rltb_reflect lb xi), (Rltb_reflect xi ub); simpl; try lra.
        apply divide_regular. lra.
      * apply (Forall_impl _ (P := fun xi => lb < xi < 0)); [| assumption].
        intros xi [Hl Hr]. unfold Rdiv. rewrite Rmult_1_l.
        apply Rinv_lt_0_compat. assumption.
Qed.

(** X18 on the interval [1, 0] and on the bounds [-10, 100]. *)
Lemma priors_outside_intended_bounds_witness :
  uniform_prior.evaluate [0.5] 1 0 1 = map (fun _ => 0) [0.5] /\
  log_uniform_prior.evaluate [0] (-10) 100 = [None].
Proof.
  destruct (priors_outside_intended_bounds [0.5] 1 0 1) as [Hu _].
  destruct (priors_outside_intended_bounds [0.5] (-10) 100 1) as [_ Hl].
  split; [apply Hu; lra | apply Hl; lra].
Defined.

(** ** Unit assignment across the catalogue *)

Section UnitAssignments.

Context {U : Type} (astropy : UnitOps U) (units : UnitAlgebra U).

(** What the consistency of the assigned units rests on: quotients and
    inverse powers of units undo products. *)
Hypothesis div_mul : forall x y : U, unit_mul astropy (unit_div units y x) x = y.
Hypothesis mul_div : forall x y : U, unit_div units (unit_mul astropy y x) x = y.
Hypothesis pow_inverse :
  forall x : U, unit_mul astropy (unit_pow units x (-1)) x = dimensionless_unscaled units.

(** X19.  The units that [_set_units] assigns make each formula
    dimensionally consistent with the axes: for [line] the slope times
    [x_unit] and the intercept are in [y_unit]; for [sin] the frequency
    times [x_unit] is dimensionless, the phase is in radians and the
    amplitude in [y_unit]; for [gaussian] and [powerlaw_flux] the integral
    [F] divided by [x_unit] is in [y_unit] and the positions are in
    [x_unit]; for [powerlaw] the normalisation is in [y_unit], the pivot
    in [x_unit] and the index dimensionless.  None of them fails. *)
Theorem set_units_dimensionally_consistent :
  forall (x_unit y_unit : U),
    (forall self : line.t U,
        fst (line._set_units units x_unit y_unit self) = Returns tt /\
        let self' := snd (line._set_units units x_unit y_unit self) in
        option_map (fun u => unit_mul astropy u x_unit) (Param.unit (line.a self'))
        = Some y_unit /\
        Param.unit (line.b self') = Some y_unit) /\
    (forall self : sin.t U,
        fst (sin._set_units units x_unit y_unit self) = Returns tt /\
        let self' := snd (sin._set_units units x_unit y_unit self) in
        option_map (fun u => unit_mul astropy u x_unit) (Param.unit (sin.f self'))
        = Some (dimensionless_unscaled units) /\
        Param.unit (sin.phi self') = Some (rad units) /\
        Param.unit (sin.K self') = Some y_unit) /\
    (forall self : gaussian.t U,
        fst (gaussian._set_units astropy x_unit y_unit self) = Returns tt /\
        let self' := snd (gaussian._set_units astropy x_unit y_unit self) in
        option_map (fun u => unit_div units u x_unit) (Param.unit (gaussian.F self'))
        = Some y_unit /\
        Param.unit (gaussian.mu self') = Some x_unit /\
        Param.unit (gaussian.sigma self') = Some x_unit) /\
    (forall self : powerlaw_flux.t U,
        fst (powerlaw_flux._set_units astropy units x_unit y_unit self) = Returns tt /\
        let self' := snd (powerlaw_flux._set_units astropy units x_unit y_unit self) in
        option_map (fun u => unit_div units u x_unit) (Param.unit (powerlaw_flux.F self'))
        = Some y_unit /\
        Param.unit (powerlaw_flux.a self') = Some x_unit /\
        Param.unit (powerlaw_flux.b self') = Some x_unit /\
        Param.unit (powerlaw_flux.index self') = Some (dimensionless_unscaled units)) /\
    (forall self : powerlaw.t U,
        fst (powerlaw._set_units units x_unit y_unit self) = Returns tt /\
        let self' := snd (powerlaw._set_units units x_unit y_unit self) in
        Param.unit (powerlaw.K self') = Some y_unit /\
        Param.unit (powerlaw.piv self') = Some x_unit /\
        Param.unit (powerlaw.index self') = Some (dimensionless_unscaled units)).
Proof.
  intros x_unit y_unit.
  repeat split; simpl; try reflexivity;
    rewrite ?div_mul, ?mul_div, ?pow_inverse; reflexivity.
Qed.

End UnitAssignments.

Lemma dimensional_div_mul (x y : dimensional.dim) :
  dimensional.mul (dimensional.mul y (dimensional.inv x)) x = y.
Proof.
  destruct x as [e t l], y as [e' t' l'].
  unfold dimensional.mul, dimensional.inv. simpl. f_equal; ring.
Qed.

Lemma dimensional_mul_div (x y : dimensional.dim) :
  dimensional.mul (dimensional.mul y x) (dimensional.inv x) = y.
Proof.
  destruct x as [e t l], y as [e' t' l'].
  unfold dimensional.mul, dimensional.inv. simpl. f_equal; ring.
Qed.

Lemma dimensional_pow_inverse (x : dimensional.dim) :
  dimensional.mul (dimensional.pow x (-1)) x = dimensional.one.
Proof.
  destruct x as [e t l].
  unfold dimensional.mul, dimensional.pow, dimensional.one.
  cbn [dimensional.energy_exp dimensional.time_exp dimensional.length_exp].
  f_equal; ring.
Qed.

(** X19 in the dimensional calculus: a line from keV to photon flux. *)
Lemma set_units_dimensionally_consistent_witness :
  let self := {| line.a := dimensional.parameter "a" 1;
                 line.b := dimensional.parameter "b" 0 |} in
  let self' := snd (line._set_units dimensional.algebra dimensional.keV
                      dimensional.photon_flux self) in
  option_map (fun u => dimensional.mul u dimensional.keV) (Param.unit (line.a self'))
  = Some dimensional.photon_flux /\
  Param.unit (line.b self') = Some dimensional.photon_flux.
Proof.
  intros self self'.
  apply (set_units_dimensionally_consistent dimensional.ops dimensional.algebra
           dimensional_div_mul dimensional_mul_div dimensional_pow_inverse
           dimensional.keV dimensional.photon_flux).
Defined.

Section UnitOverwrite.

Context {U : Type} (astropy : UnitOps U) (units : UnitAlgebra U).

(** X20.  [_set_units] only overwrites units: the values of the
    parameters are left as they were, and of two calls in a row the second
    decides the state, so that a repeated call with the same units changes
    nothing; for [bias] this holds of the state also when the call ends
    in the usage error. *)
Theorem set_units_keeps_values_and_last_call_wins :
  forall (x1 y1 x2 y2 : U),
    (forall self : line.t U,
        let once := snd (line._set_units units x2 y2 self) in
        snd (line._set_units units x2 y2 (snd (line._set_units units x1 y1 self))) = once /\
        Param.value (line.a once) = Param.value (line.a self) /\
        Param.value (line.b once) = Param.value (line.b self)) /\
    (forall self : sin.t U,
        let once := snd (sin._set_units units x2 y2 self) in
        snd (sin._set_units units x2 y2 (snd (sin._set_units units x1 y1 self))) = once /\
        Param.value (sin.K once) = Param.value (sin.K self) /\
        Param.value (sin.f once) = Param.value (sin.f self) /\
        Param.value (sin.phi once) = Param.value (sin.phi self)) /\
    (forall self : gaussian.t U,
        let once := snd (gaussian._set_units astropy x2 y2 self) in
        snd (gaussian._set_units astropy x2 y2
               (snd (gaussian._set_units astropy x1 y1 self))) = once /\
        Param.value (gaussian.F once) = Param.value (gaussian.F self) /\
        Param.value (gaussian.mu once) = Param.value (gaussian.mu self) /\
        Param.value (gaussian.sigma once) = Param.value (gaussian.sigma self)) /\
    (forall self : powerlaw_flux.t U,
        let once := snd (powerlaw_flux._set_units astropy units x2 y2 self) in
        snd (powerlaw_flux._set_units astropy units x2 y2
               (snd (powerlaw_flux._set_units astropy units x1 y1 self))) = once /\
        Param.value (powerlaw_flux.F once) = Param.value (powerlaw_flux.F self) /\
        Param.value (powerlaw_flux.index once) = Param.value (powerlaw_flux.index self) /\
        Param.value (powerlaw_flux.a once) = Param.value (powerlaw_flux.a self) /\
        Param.value (powerlaw_flux.b once) = Param.value (powerlaw_flux.b self)) /\
    (forall self : powerlaw.t U,
        let once := snd (powerlaw._set_units units x2 y2 self) in
        snd (powerlaw._set_units units x2 y2
               (snd (powerlaw._set_units units x1 y1 self))) = once /\
        Param.value (powerlaw.K once) = Param.value (powerlaw.K self) /\
        Param.value (powerlaw.piv once) = Param.value (powerlaw.piv self) /\
        Param.value (powerlaw.index once) = Param.value (powerlaw.index self)) /\
    (forall self : bias.t U,
        let once := snd (bias._set_units astropy x2 y2 self) in
        snd (bias._set_units astropy x2 y2 (snd (bias._set_units astropy x1 y1 self)))
        = once /\
        Param.value (bias.k once) = Param.value (bias.k self)).
Proof.
  intros x1 y1 x2 y2. repeat split; try reflexivity.
  - unfold bias._set_units.
    destruct (unit_ne astropy x1 y1), (unit_ne astropy x2 y2); reflexivity.
  - unfold bias._set_units. destruct (unit_ne astropy x2 y2); reflexivity.
Qed.

(** X21.  [synchrotron.set_particle_distribution] stores the reference
    before it asks the function to take the particle-energy units, and
    builds the wrapper after: the getter answers the new function and the
    function object itself carries what its [_set_units] did, whether or
    not that call failed; no other object is touched; when the call fails
    the failure is handed on and the wrapper stays the one of the
    distribution attached before (or absent), and when it returns the
    wrapper holds the new function and the particle-energy unit. *)
Theorem synchrotron_set_particle_distribution_order :
  forall (D : Type) (function_set_units : U -> U -> method D Datatypes.unit)
         (function : nat) (self : synchrotron.state D),
    let pe := particle_energy (get_units astropy) in
    let called := function_set_units pe (unit_pow units pe (-1))
                    (synchrotron.objects D self function) in
    let result := synchrotron.set_particle_distribution astropy units D
                    function_set_units function self in
    synchrotron.get_particle_distribution D (snd result) = Some function /\
    synchrotron.objects D (snd result) function = snd called /\
    (forall r : nat, r <> function ->
       synchrotron.objects D (snd result) r = synchrotron.objects D self r) /\
    (fst called = Returns tt ->
     fst result = Returns tt /\
     synchrotron._particle_distribution_wrapper D (snd result) = Some (function, pe)) /\
    (fst called <> Returns tt ->
     fst result = fst called /\
     synchrotron._particle_distribution_wrapper D (snd result)
     = synchrotron._particle_distribution_wrapper D self).
Proof.
  intros D function_set_units function self pe called result.
  unfold result, called, pe, synchrotron.set_particle_distribution,
    synchrotron.get_particle_distribution.
  clear result called pe. cbv zeta.
  assert (Hsame : Nat.eqb function function = true) by apply Nat.eqb_refl.
  assert (Hother : forall r : nat, r <> function -> Nat.eqb r function = false)
    by (intros r Hr; apply Nat.eqb_neq; exact Hr).
  destruct (fst (function_set_units _ _ _)) as [[] | e |];
    simpl; rewrite ?Hsame;
    (split; [reflexivity |]);
    (split; [reflexivity |]);
    (split; [intros r Hr; rewrite (Hother r Hr); reflexivity |]);
    split; intros H;
    try discriminate H;
    try (contradiction H; reflexivity);
    split; reflexivity.
Qed.

End UnitOverwrite.

(** X20 in the dimensional calculus: a line first given seconds and keV,
    then keV and photon flux. *)
Lemma set_units_keeps_values_and_last_call_wins_witness :
  let self := {| line.a := dimensional.parameter "a" 1;
                 line.b := dimensional.parameter "b" 0 |} in
  snd (line._set_units dimensional.algebra dimensional.keV dimensional.photon_flux
         (snd (line._set_units dimensional.algebra dimensional.second dimensional.keV self)))
  = snd (line._set_units dimensional.algebra dimensional.keV dimensional.photon_flux self).
Proof.
  intros self.
  apply (set_units_keeps_values_and_last_call_wins dimensional.ops dimensional.algebra
           dimensional.second dimensional.keV dimensional.keV dimensional.photon_flux).
Defined.

(** X21 on a [bias] attached over an earlier distribution: [bias] refuses
    keV against 1/keV, the getter answers the [bias], the wrapper still
    holds the earlier function. *)
Lemma synchrotron_set_particle_distribution_order_witness :
  let self := {| synchrotron.objects :=
                   fun _ => {| bias.k := dimensional.parameter "k" 0 |};
                 synchrotron._particle_distribution := Some 0%nat;
                 synchrotron._particle_distribution_wrapper :=
                   Some (0%nat, dimensional.keV) |} in
  let result := synchrotron.set_particle_distribution dimensional.ops dimensional.algebra
                  (bias.t dimensional.dim) (bias._set_units dimensional.ops) 1%nat self in
  synchrotron.get_particle_distribution (bias.t dimensional.dim) (snd result) = Some 1%nat /\
  synchrotron._particle_distribution_wrapper (bias.t dimensional.dim) (snd result)
  = Some (0%nat, dimensional.keV).
Proof.
  intros self result.
  destruct (synchrotron_set_particle_distribution_order dimensional.ops dimensional.algebra
              (bias.t dimensional.dim) (bias._set_units dimensional.ops) 1%nat self)
    as [Hget [_ [_ [_ Hfail]]]].
  split; [exact Hget |].
  apply Hfail. discriminate.
Defined.
